(** * md_to_docx: the Markdown block parser and the inline formatter

    A shallow embedding of [parse_markdown] and [add_formatted_text] of
    [portland_nesc/docs/md_to_docx.py], with the Python string methods and the
    fragment of [re] they rely on, and the properties of both functions.

    Strings are lists of characters; a character is a code point below 256.
    Whitespace is what [str.isspace] (and the pattern [\s] of a [str] regex)
    accepts in that range. *)

From Stdlib Require Import Ascii String List Bool Arith Lia.
Import ListNotations.
Open Scope list_scope.

Definition str := list ascii.

(** String literals of the source are written [lit "..."]. *)
Definition lit (s : string) : str := list_ascii_of_string s.
Arguments lit : simpl never.

(** ** Python string methods *)

Module Py.

(** [str.isspace] on one code point below 256: TAB..CR, FS..US, space,
    NEL and the no-break space. *)
Definition isspace (c : ascii) : bool :=
  let n := nat_of_ascii c in
  ((9 <=? n) && (n <=? 13)) || ((28 <=? n) && (n <=? 31))
  || (n =? 32) || (n =? 133) || (n =? 160).

Fixpoint str_eqb (a b : str) : bool :=
  match a, b with
  | [], [] => true
  | x :: a', y :: b' => Ascii.eqb x y && str_eqb a' b'
  | _, _ => false
  end.

(** [c in chars] for a one-character [c]. *)
Definition mem (c : ascii) (chars : str) : bool := existsb (Ascii.eqb c) chars.

(** [s.lstrip(...)], [s.rstrip(...)] and [s.strip(...)], by the predicate
    that says which characters are removed. *)
Fixpoint lstrip_by (p : ascii -> bool) (s : str) : str :=
  match s with
  | c :: t => if p c then lstrip_by p t else s
  | [] => []
  end.

Definition rstrip_by (p : ascii -> bool) (s : str) : str :=
  rev (lstrip_by p (rev s)).

Definition strip_by (p : ascii -> bool) (s : str) : str :=
  rstrip_by p (lstrip_by p s).

(** [s.strip()] *)
Definition strip (s : str) : str := strip_by isspace s.

(** [s.lstrip(chars)] and [s.strip(chars)] *)
Definition lstrip_chars (s chars : str) : str :=
  lstrip_by (fun c => mem c chars) s.

Definition strip_chars (s chars : str) : str :=
  strip_by (fun c => mem c chars) s.

(** [s.startswith(prefix)] and [s.endswith(suffix)] *)
Fixpoint startswith (s prefix : str) : bool :=
  match prefix, s with
  | [], _ => true
  | a :: prefix', b :: s' => Ascii.eqb b a && startswith s' prefix'
  | _ :: _, [] => false
  end.

Definition endswith (s suffix : str) : bool :=
  startswith (rev s) (rev suffix).

(** [s.split(sep)] for a one-character separator: never an empty list. *)
Fixpoint split (s : str) (sep : ascii) : list str :=
  match s with
  | [] => [[]]
  | c :: t =>
      if Ascii.eqb c sep then [] :: split t sep
      else match split t sep with
           | w :: ws => (c :: w) :: ws
           | [] => [[c]]
           end
  end.

(** [sep.join(parts)] *)
Fixpoint join (sep : str) (parts : list str) : str :=
  match parts with
  | [] => []
  | p :: ps =>
      match ps with
      | [] => p
      | _ :: _ => p ++ sep ++ join sep ps
      end
  end.

(** [s[a:-b]] for literal [a] and [b > 0]: the stop index [len(s) - b] is
    clamped at 0, and the slice is empty when the stop is not after [a]. *)
Definition slice (s : str) (a b : nat) : str :=
  firstn (length s - b - a) (skipn a s).

End Py.

(** ** The fragment of [re] the source uses

    Literal characters, character classes, greedy [*] and [+] over a class,
    concatenation, alternation and [$].  [bt r s] lists what is left of [s]
    after each way [r] can match at its start, in the order the backtracking
    matcher tries them: its head is the match [re] reports. *)

Module Re.

Inductive regex : Type :=
| Chr (c : ascii)
| ClsStar (p : ascii -> bool)
| ClsPlus (p : ascii -> bool)
| Cat (r1 r2 : regex)
| Alt (r1 r2 : regex)
| Eol.

(** Greedy repetition of a class: the longest run first. *)
Fixpoint star_rests (p : ascii -> bool) (s : str) : list str :=
  match s with
  | c :: t => if p c then star_rests p t ++ [s] else [s]
  | [] => [[]]
  end.

Fixpoint bt (r : regex) (s : str) : list str :=
  match r with
  | Chr c =>
      match s with
      | x :: t => if Ascii.eqb x c then [t] else []
      | [] => []
      end
  | ClsStar p => star_rests p s
  | ClsPlus p =>
      match s with
      | x :: t => if p x then star_rests p t else []
      | [] => []
      end
  | Cat r1 r2 => flat_map (bt r2) (bt r1 s)
  | Alt r1 r2 => bt r1 s ++ bt r2 s
  | Eol =>
      (* [$]: at the end, or just before a newline that ends the string *)
      match s with
      | [] => [s]
      | c :: t =>
          match t with
          | [] => if Ascii.eqb c "010" then [s] else []
          | _ :: _ => []
          end
      end
  end.

(** [re.match(r, s)] is not [None].  A leading [^] of the pattern is left
    out: [re.match] only tries the start of the string. *)
Definition re_match (r : regex) (s : str) : bool :=
  match bt r s with
  | [] => false
  | _ :: _ => true
  end.

(** The first match of [r] at the start of [s]: the matched text and the
    rest. *)
Definition match_here (r : regex) (s : str) : option (str * str) :=
  match bt r s with
  | rest :: _ => Some (firstn (length s - length rest) s, rest)
  | [] => None
  end.

(** [re.split] for a pattern that is one capturing group and has no empty
    match: the text before each match, then the match itself, and at the end
    the text after the last match.  [pending] holds, reversed, the characters
    passed since the last match.  Each step consumes a character, so a fuel
    above the length of [s] is never used up. *)
Fixpoint split_loop (fuel : nat) (r : regex) (pending s : str) : list str :=
  match fuel with
  | 0 => [rev pending ++ s]
  | S fuel' =>
      match match_here r s with
      | Some (m, rest) => rev pending :: m :: split_loop fuel' r [] rest
      | None =>
          match s with
          | [] => [rev pending]
          | c :: t => split_loop fuel' r (c :: pending) t
          end
      end
  end.

Definition re_split (r : regex) (s : str) : list str :=
  split_loop (S (length s)) r [] s.

End Re.

Import Py Re.

(** ** The patterns of the source *)

(** The class [[\s\-:|]] *)
Definition sep_class (c : ascii) : bool :=
  isspace c || Ascii.eqb c "-" || Ascii.eqb c ":" || Ascii.eqb c "|".

(** [^\s*\|[\s\-:|]+\|\s*$] : the lookahead that starts a table *)
Definition table_sep_re : regex :=
  Cat (ClsStar isspace)
      (Cat (Chr "|")
           (Cat (ClsPlus sep_class)
                (Cat (Chr "|") (Cat (ClsStar isspace) Eol)))).

(** [^[\s\-:|]+$] : a separator row inside a table *)
Definition sep_row_re : regex := Cat (ClsPlus sep_class) Eol.

Definition not_star (c : ascii) : bool := negb (Ascii.eqb c "*").
Definition not_tick (c : ascii) : bool := negb (Ascii.eqb c "`").

(** The one group of the pattern of [re.split], its three alternatives in
    order: [\*\*[^*]+\*\*] (bold), [`[^`]+`] (code), [\*[^*]+\*] (italic) *)
Definition inline_re : regex :=
  Alt (Cat (Chr "*") (Cat (Chr "*")
         (Cat (ClsPlus not_star) (Cat (Chr "*") (Chr "*")))))
      (Alt (Cat (Chr "`") (Cat (ClsPlus not_tick) (Chr "`")))
           (Cat (Chr "*") (Cat (ClsPlus not_star) (Chr "*")))).

(** ["\n"] *)
Definition newline : str := ["010"%char].

(** ** Blocks and [parse_markdown] *)

(** The dictionaries [parse_markdown] appends, by their ["type"] key. *)
Inductive Block : Type :=
| Heading (level : nat) (text : str)
| Paragraph (text : str)
| CodeBlock (text : str)
| Table (rows : list (list str)).

(** [line.strip() in ("---", "***", "___")] *)
Definition is_rule (line : str) : bool :=
  existsb (str_eqb (strip line)) [lit "---"; lit "***"; lit "___"].

(** [line.strip().startswith("```")] *)
Definition is_fence (line : str) : bool :=
  startswith (strip line) (lit "```").

(** ["|" in line] *)
Definition has_pipe (line : str) : bool := mem "|" line.

(** [line.strip()] is not empty *)
Definition nonblank (line : str) : bool :=
  match strip line with
  | [] => false
  | _ :: _ => true
  end.

(** [i + 1 < len(lines) and re.match(r"^\s*\|[\s\-:|]+\|\s*$", lines[i + 1])],
    on [after = lines[i+1:]] *)
Definition table_lookahead (after : list str) : bool :=
  match after with
  | next :: _ => re_match table_sep_re next
  | [] => false
  end.

(** [[c.strip() for c in line.strip().strip("|").split("|")]] *)
Definition row_cells (line : str) : list str :=
  map strip (split (strip_chars (strip line) (lit "|")) "|").

(** [re.match(r"^[\s\-:|]+$", line.strip().strip("|"))] *)
Definition is_sep_row (line : str) : bool :=
  re_match sep_row_re (strip_chars (strip line) (lit "|")).

(** The three inner loops.  Each runs on [rest = lines[i:]] and carries the
    list it appends to and the cursor [i]. *)

(** [while i < len(lines) and not lines[i].strip().startswith("```")] *)
Fixpoint code_loop (rest code_lines : list str) (i : nat)
  : list str * nat :=
  match rest with
  | l :: rest' =>
      if negb (is_fence l) then code_loop rest' (code_lines ++ [l]) (S i)
      else (code_lines, i)
  | [] => (code_lines, i)
  end.

(** [while i < len(lines) and "|" in lines[i]] *)
Fixpoint table_loop (rest : list str) (rows : list (list str)) (i : nat)
  : list (list str) * nat :=
  match rest with
  | l :: rest' =>
      if has_pipe l then
        let cells := row_cells l in
        let rows' := if negb (is_sep_row l) then rows ++ [cells] else rows in
        table_loop rest' rows' (S i)
      else (rows, i)
  | [] => (rows, i)
  end.

(** The guard of the paragraph loop at [lines[i] = l], with
    [after = lines[i+1:]]. *)
Definition para_guard (l : str) (after : list str) : bool :=
  nonblank l
  && negb (startswith l (lit "#"))
  && negb (is_fence l)
  && negb (has_pipe l
           && match after with
              | next :: _ => has_pipe next
              | [] => false
              end).

Fixpoint para_loop (rest para_lines : list str) (i : nat)
  : list str * nat :=
  match rest with
  | l :: rest' =>
      if para_guard l rest' then para_loop rest' (para_lines ++ [l]) (S i)
      else (para_lines, i)
  | [] => (para_lines, i)
  end.

(** One turn of the outer [while i < len(lines)] loop at cursor [i]: the new
    cursor and the blocks appended. *)
Definition parse_step (lines : list str) (i : nat) : nat * list Block :=
  match skipn i lines with
  | [] => (i, [])
  | line :: after =>
      if startswith line (lit "#") then
        let level := length line - length (lstrip_chars line (lit "#")) in
        let content := strip (lstrip_chars line (lit "#")) in
        (S i, [Heading level content])
      else if is_rule line then (S i, [])
      else if is_fence line then
        let '(code_lines, j) := code_loop after [] (S i) in
        (S j, [CodeBlock (join newline code_lines)])
      else if has_pipe line && table_lookahead after then
        let '(rows, j) := table_loop (line :: after) [] i in
        (j, [Table rows])
      else if negb (nonblank line) then (S i, [])
      else
        let '(para_lines, j) := para_loop (line :: after) [] i in
        (j, match para_lines with
            | [] => []
            | _ :: _ => [Paragraph (join (lit " ") para_lines)]
            end)
  end.

(** The outer loop.  Python's [while] has no bound, so the model takes fuel:
    [None] is "still running after [fuel] turns". *)
Fixpoint parse_loop (fuel : nat) (lines : list str) (i : nat)
  (blocks : list Block) : option (list Block) :=
  if i <? length lines then
    match fuel with
    | 0 => None
    | S fuel' =>
        let '(j, new) := parse_step lines i in
        parse_loop fuel' lines j (blocks ++ new)
    end
  else Some blocks.

(** The parse of a list of lines.  A turn that moves the cursor moves it
    forward, so [length lines] turns are enough whenever the loop ends
    ([parse_loop_enough] below): [None] here means the loop never ends. *)
Definition segment (lines : list str) : option (list Block) :=
  parse_loop (length lines) lines 0 [].

Definition parse_markdown_fuel (fuel : nat) (text : str)
  : option (list Block) :=
  parse_loop fuel (split text "010") 0 [].

Definition parse_markdown (text : str) : option (list Block) :=
  segment (split text "010").

(** ** Runs and [add_formatted_text] *)

(** A run added to the paragraph, by the formatting the source gives it:
    none, [bold], [italic], or the Consolas font of inline code. *)
Inductive Run : Type :=
| Plain (text : str)
| Bold (text : str)
| Italic (text : str)
| Code (text : str).

(** The body of [for part in parts]: the run added for one part. *)
Definition run_of_part (part : str) : Run :=
  if startswith part (lit "**") && endswith part (lit "**") then
    Bold (slice part 2 2)
  else if startswith part (lit "`") && endswith part (lit "`") then
    Code (slice part 1 1)
  else if startswith part (lit "*") && endswith part (lit "*")
          && negb (startswith part (lit "**")) then
    Italic (slice part 1 1)
  else Plain part.

(** The text a run carries. *)
Definition run_text (r : Run) : str :=
  match r with
  | Plain t | Bold t | Italic t | Code t => t
  end.

(** The characters XML takes in text: TAB, LF, CR and every character from
    the space on.  [python-docx] makes a tab or a break of TAB, LF and CR
    and hands the rest of a run's text to [lxml], which raises [ValueError]
    on a NUL or any other control character below the space. *)
Definition xml_char (c : ascii) : bool :=
  let n := nat_of_ascii c in
  (n =? 9) || (n =? 10) || (n =? 13) || (32 <=? n).

Definition xml_text (s : str) : bool := forallb xml_char s.

(** [paragraph.add_run(text)] and the attributes set on the run: the run
    the paragraph gains, or [None] for the [ValueError] of a text XML
    refuses.  An empty text is not handed on and never raises. *)
Definition add_run (r : Run) : option (list Run) :=
  if xml_text (run_text r) then Some [r] else None.

(** [for x in l: ...] where a turn appends to what is being built or
    raises.  The loop ends at the first turn that raises: [None] is the
    exception leaving the loop. *)
Definition append_loop {A B : Type} (body : A -> option (list B))
  (l : list A) (start : list B) : option (list B) :=
  fold_left (fun built x =>
               match built with
               | Some b =>
                   match body x with
                   | Some new => Some (b ++ new)
                   | None => None
                   end
               | None => None
               end)
            l (Some start).

(** [paragraph] is the list of runs of the paragraph object; every part
    appends one run to it, unless [add_run] raises. *)
Definition add_formatted_text (paragraph : list Run) (text : str)
  : option (list Run) :=
  let parts := re_split inline_re text in
  append_loop (fun part => add_run (run_of_part part)) parts paragraph.

(** What [add_formatted_text] does to a fresh paragraph. *)
Definition tokenize (text : str) : option (list Run) :=
  add_formatted_text [] text.

(** ** Vocabulary of the statements *)

(** The longest prefix of [l] whose elements satisfy [p]. *)
Fixpoint take_while {A : Type} (p : A -> bool) (l : list A) : list A :=
  match l with
  | x :: t => if p x then x :: take_while p t else []
  | [] => []
  end.

(** The lines the paragraph loop takes from [rest]. *)
Fixpoint para_run (rest : list str) : list str :=
  match rest with
  | l :: rest' => if para_guard l rest' then l :: para_run rest' else []
  | [] => []
  end.

(** The lines of a table: the pipe lines from the cursor on. *)
Definition table_run (lines : list str) (i : nat) : list str :=
  take_while has_pipe (skipn i lines).

(** The rows kept of these lines: the cells of those that are not separator
    rows. *)
Definition kept_rows (run : list str) : list (list str) :=
  map row_cells (filter (fun l => negb (is_sep_row l)) run).

(** What the paragraph branch gives for the lines it takes. *)
Definition paragraph_of (run : list str) : list Block :=
  match run with
  | [] => []
  | _ :: _ => [Paragraph (join (lit " ") run)]
  end.

(** From the words of the specification, to compare with [para_guard]: the
    guard of the paragraph loop with "the same lookahead rule" as the table
    test, that is with its regular expression. *)
Definition para_guard_with_lookahead (l : str) (after : list str) : bool :=
  nonblank l
  && negb (startswith l (lit "#"))
  && negb (is_fence l)
  && negb (has_pipe l && table_lookahead after).

(** The marker of each kind of run, and the run put back between its
    markers. *)
Definition run_marker (r : Run) : str :=
  match r with
  | Plain _ => []
  | Bold _ => lit "**"
  | Italic _ => lit "*"
  | Code _ => lit "`"
  end.

Definition run_source (r : Run) : str :=
  run_marker r ++ run_text r ++ run_marker r.

(** The parts that are nothing but marker characters, too short to hold an
    opening and a closing marker. *)
Definition bare_marker (part : str) : bool :=
  existsb (str_eqb part) [lit "`"; lit "*"; lit "**"; lit "***"].

(** A line and its successor on which a turn stalls: the line holds a pipe
    and is no heading and no fence, the next line holds a pipe and is no
    table separator. *)
Definition stall_pair (line next : str) : bool :=
  negb (startswith line (lit "#")) && negb (is_fence line)
  && has_pipe line && has_pipe next
  && negb (re_match table_sep_re next).

Definition stalls_at (lines : list str) (i : nat) : bool :=
  match skipn i lines with
  | line :: next :: _ => stall_pair line next
  | _ => false
  end.

(** The parts at the odd positions of what [re.split] returns: with one
    capturing group these are the matches, the others the text between. *)
Fixpoint odd_parts (parts : list str) : list str :=
  match parts with
  | _ :: m :: rest => m :: odd_parts rest
  | _ => []
  end.

(** A part as the pattern matches it: a marker, one or more characters that
    are not the marker character, the marker again. *)
Definition marked (marker : str) (keep : ascii -> bool) (t part : str) : Prop :=
  t <> [] /\ forallb keep t = true /\ part = marker ++ t ++ marker.

(** A text without asterisk and backtick. *)
Definition no_marker (s : str) : Prop :=
  forall c, In c s -> c <> "*"%char /\ c <> "`"%char.

(** What [run_of_part] makes of a part the pattern matched. *)
Definition formatted_match (m : str) : Prop :=
  exists t,
    (marked (lit "**") not_star t m /\ run_of_part m = Bold t)
    \/ (marked (lit "`") not_tick t m /\ run_of_part m = Code t)
    \/ (marked (lit "*") not_star t m /\ run_of_part m = Italic t).

(** What every block [parse_markdown] appends satisfies. *)
Definition block_ok (b : Block) : Prop :=
  match b with
  | Heading level text => 1 <= level /\ strip text = text
  | Paragraph text => nonblank text = true
  | CodeBlock _ => True
  | Table rows =>
      Forall (fun row => row <> [] /\ Forall (fun c => strip c = c) row) rows
  end.

(** ** [convert_md_to_docx]

    The document is the list of what the function adds to it, in order.  The
    calls into [python-docx] are kept as they are made: the content of the
    document is what the source passes to them.  A call that is given a text
    raises [ValueError] when XML refuses the text ([add_heading] and
    [add_run] both end in the same assignment); nothing in the source
    catches it, so the exception ends the conversion and no document is
    saved. *)

(** The attributes of a run, as the source sets them. *)
Record DocRun : Type := mkDocRun {
  run_str : str;
  run_bold : bool;
  run_italic : bool;
  run_consolas : bool
}.

(** The attributes [add_formatted_text] gives a run of each kind. *)
Definition doc_run (r : Run) : DocRun :=
  match r with
  | Plain t => mkDocRun t false false false
  | Bold t => mkDocRun t true false false
  | Italic t => mkDocRun t false true false
  | Code t => mkDocRun t false false true
  end.

(** [run.bold = True] *)
Definition set_bold (r : DocRun) : DocRun :=
  mkDocRun (run_str r) true (run_italic r) (run_consolas r).

(** One [table.cell(ri, ci)] that is written, with the runs of its first
    paragraph afterwards. *)
Record CellWrite : Type := mkCellWrite {
  cell_row : nat;
  cell_col : nat;
  cell_runs : list DocRun
}.

Inductive Element : Type :=
| DocHeading (text : str) (level : nat) (left_aligned : bool)
| DocParagraph (runs : list DocRun)
| DocCode (text : str)
| DocTable (n_rows n_cols : nat) (cells : list CellWrite).

(** [enumerate(l)] *)
Definition enumerate {A : Type} (l : list A) : list (nat * A) :=
  combine (seq 0 (length l)) l.

(** [max(len(r) for r in rows)], for [rows] that is not empty *)
Definition max_len (rows : list (list str)) : nat :=
  fold_left Nat.max (map (@length str) rows) 0.

Section Sink.

(** The runs of [cell.paragraphs[0]] once [cell.text = ""] has run: what the
    library leaves there, in the vocabulary of [Run]. *)
Variable cell0 : list Run.

(** The body of the loop over the cells of a row, for one cell: the cell
    written, or [None] when [add_formatted_text] raises. *)
Definition fill_cell (n_cols ri ci : nat) (cell_text : str)
  : option (list CellWrite) :=
  if ci <? n_cols then
    match add_formatted_text cell0 cell_text with
    | Some runs =>
        let para := map doc_run runs in
        Some [mkCellWrite ri ci (if ri =? 0 then map set_bold para else para)]
    | None => None
    end
  else Some [].

(** [for ci, cell_text in enumerate(row)] *)
Definition fill_row (n_cols ri : nat) (row : list str)
  : option (list CellWrite) :=
  append_loop (fun '(ci, cell_text) => fill_cell n_cols ri ci cell_text)
              (enumerate row) [].

(** The body of [for block in blocks]: what one block adds to the
    document, or [None] when a call raises. *)
Definition convert_block (b : Block) : option (list Element) :=
  match b with
  | Heading level text =>
      let level := Nat.min level 4 in
      if xml_text text then Some [DocHeading text level (level =? 1)]
      else None
  | Paragraph text =>
      match add_formatted_text [] text with
      | Some runs => Some [DocParagraph (map doc_run runs)]
      | None => None
      end
  | CodeBlock text => if xml_text text then Some [DocCode text] else None
  | Table rows =>
      match rows with
      | [] => Some []
      | _ :: _ =>
          let n_cols := max_len rows in
          match append_loop (fun '(ri, row) => fill_row n_cols ri row)
                            (enumerate rows) [] with
          | Some cells =>
              Some [DocTable (length rows) n_cols cells; DocParagraph []]
          | None => None
          end
      end
  end.

(** The document after the loop over the blocks, or [None] when a call
    raised. *)
Definition convert_blocks (blocks : list Block) : option (list Element) :=
  append_loop convert_block blocks [].

(** [convert_md_to_docx] from the text read to the document saved; [None]
    when no document is saved: [parse_markdown] does not return, or a call
    raises. *)
Definition convert_md_to_docx (text : str) : option (list Element) :=
  match parse_markdown text with
  | Some blocks => convert_blocks blocks
  | None => None
  end.

End Sink.

(** The runs of the parts of a text: what [add_formatted_text] adds when
    no [add_run] raises. *)
Definition part_runs (text : str) : list Run :=
  map run_of_part (re_split inline_re text).

(** What one turn of a loop appends once it is known not to raise. *)
Definition appended {A B : Type} (body : A -> option (list B)) (x : A)
  : list B :=
  match body x with
  | Some new => new
  | None => []
  end.

(** The runs of a written cell: those of the cell's paragraph and those of
    the cell text, all bold in row 0. *)
Definition written_runs (cell0 : list Run) (ri : nat) (cell_text : str)
  : list DocRun :=
  let para := map doc_run (cell0 ++ part_runs cell_text) in
  if ri =? 0 then map set_bold para else para.

(** The cells of a table as the two loops write them when no cell is left
    out: row by row, every cell of the row in order. *)
Definition all_cells (cell0 : list Run) (rows : list (list str))
  : list CellWrite :=
  flat_map (fun '(ri, row) =>
              map (fun '(ci, cell_text) =>
                     mkCellWrite ri ci (written_runs cell0 ri cell_text))
                  (enumerate row))
           (enumerate rows).

(** A block all of whose texts XML takes. *)
Definition block_xml (b : Block) : Prop :=
  match b with
  | Heading _ text | Paragraph text | CodeBlock text => xml_text text = true
  | Table rows => forallb (forallb xml_text) rows = true
  end.

(** What holds of every element of a document made from a parsed text. *)
Definition element_ok (e : Element) : Prop :=
  match e with
  | DocHeading text level left_aligned =>
      1 <= level <= 4 /\ left_aligned = (level =? 1) /\ strip text = text
  | DocTable n_rows n_cols cells =>
      1 <= n_rows /\ 1 <= n_cols
      /\ Forall (fun w => cell_row w < n_rows /\ cell_col w < n_cols) cells
  | DocParagraph _ | DocCode _ => True
  end.

(** * Properties *)

(** ** The inner loops as list functions *)

Lemma take_while_all {A : Type} (p : A -> bool) (l : list A) :
  (forall x, In x l -> p x = true) -> take_while p l = l.
Proof.
  induction l as [|x l IH]; simpl; intros H; [reflexivity|].
  rewrite (H x (or_introl eq_refl)). f_equal. apply IH. intros y Hy.
  apply H. now right.
Qed.

Lemma code_loop_eq (rest acc : list str) (i : nat) :
  code_loop rest acc i =
  (acc ++ take_while (fun l => negb (is_fence l)) rest,
   i + length (take_while (fun l => negb (is_fence l)) rest)).
Proof.
  revert acc i. induction rest as [|l rest IH]; intros acc i; simpl.
  - now rewrite app_nil_r, Nat.add_0_r.
  - destruct (negb (is_fence l)); simpl.
    + rewrite IH, <- app_assoc. simpl. f_equal. lia.
    + now rewrite app_nil_r, Nat.add_0_r.
Qed.

Lemma table_loop_eq (rest : list str) (rows : list (list str)) (i : nat) :
  table_loop rest rows i =
  (rows ++ map row_cells
             (filter (fun l => negb (is_sep_row l)) (take_while has_pipe rest)),
   i + length (take_while has_pipe rest)).
Proof.
  revert rows i. induction rest as [|l rest IH]; intros rows i; simpl.
  - now rewrite app_nil_r, Nat.add_0_r.
  - destruct (has_pipe l); simpl.
    + rewrite IH. destruct (negb (is_sep_row l)); simpl.
      * rewrite <- app_assoc. simpl. f_equal. lia.
      * f_equal. lia.
    + now rewrite app_nil_r, Nat.add_0_r.
Qed.

Lemma para_loop_eq (rest acc : list str) (i : nat) :
  para_loop rest acc i = (acc ++ para_run rest, i + length (para_run rest)).
Proof.
  revert acc i. induction rest as [|l rest IH]; intros acc i; simpl.
  - now rewrite app_nil_r, Nat.add_0_r.
  - destruct (para_guard l rest); simpl.
    + rewrite IH, <- app_assoc. simpl. f_equal. lia.
    + now rewrite app_nil_r, Nat.add_0_r.
Qed.

(** ** The outer loop: progress, and how much fuel is enough *)

Lemma parse_loop_unfold (fuel : nat) (lines : list str) (i : nat)
  (blocks : list Block) :
  parse_loop fuel lines i blocks =
  if i <? length lines then
    match fuel with
    | 0 => None
    | S fuel' =>
        let '(j, new) := parse_step lines i in
        parse_loop fuel' lines j (blocks ++ new)
    end
  else Some blocks.
Proof. destruct fuel; reflexivity. Qed.

(** A turn either moves the cursor forward or changes nothing at all. *)
Lemma parse_step_progress (lines : list str) (i j : nat) (new : list Block) :
  parse_step lines i = (j, new) -> i < j \/ (j = i /\ new = []).
Proof.
  unfold parse_step. destruct (skipn i lines) as [|line after].
  - intros [= <- <-]. now right.
  - destruct (startswith line (lit "#")); [intros [= <- <-]; left; lia|].
    destruct (is_rule line); [intros [= <- <-]; left; lia|].
    destruct (is_fence line).
    { rewrite code_loop_eq. intros [= <- <-]. left. lia. }
    destruct (has_pipe line) eqn:Hp; simpl.
    + destruct (table_lookahead after).
      { rewrite table_loop_eq. simpl. rewrite Hp. simpl.
        intros [= <- <-]. left. lia. }
      destruct (negb (nonblank line)); [intros [= <- <-]; left; lia|].
      rewrite para_loop_eq. simpl.
      destruct (para_guard line after); simpl; intros [= <- <-].
      * left. lia.
      * right. split; [lia|reflexivity].
    + destruct (negb (nonblank line)); [intros [= <- <-]; left; lia|].
      rewrite para_loop_eq. simpl.
      destruct (para_guard line after); simpl; intros [= <- <-].
      * left. lia.
      * right. split; [lia|reflexivity].
Qed.

(** A turn that changes nothing is repeated for ever. *)
Lemma parse_loop_stuck (lines : list str) (i : nat) :
  i < length lines -> parse_step lines i = (i, []) ->
  forall fuel blocks, parse_loop fuel lines i blocks = None.
Proof.
  intros Hi Hs fuel. induction fuel as [|fuel IH]; intros blocks;
    rewrite parse_loop_unfold;
    destruct (Nat.ltb_spec i (length lines)) as [_|Hge]; try lia.
  - reflexivity.
  - rewrite Hs. cbv beta iota. rewrite app_nil_r. apply IH.
Qed.

Lemma parse_loop_mono (fuel fuel' : nat) (lines : list str) (i : nat)
  (blocks r : list Block) :
  parse_loop fuel lines i blocks = Some r -> fuel <= fuel' ->
  parse_loop fuel' lines i blocks = Some r.
Proof.
  revert fuel' i blocks.
  induction fuel as [|fuel IH]; intros fuel' i blocks;
    rewrite !(parse_loop_unfold _ lines i);
    destruct (i <? length lines); try discriminate; try tauto.
  destruct fuel' as [|fuel']; [lia|].
  destruct (parse_step lines i) as [j new]. intros H Hle.
  apply IH; [exact H|lia].
Qed.

(** If the loop ends at all, it ends within [length lines - i] turns. *)
Lemma parse_loop_enough (fuel : nat) (lines : list str) (i : nat)
  (blocks r : list Block) :
  parse_loop fuel lines i blocks = Some r ->
  parse_loop (length lines - i) lines i blocks = Some r.
Proof.
  revert i blocks. induction fuel as [|fuel IH]; intros i blocks;
    rewrite !(parse_loop_unfold _ lines i);
    destruct (Nat.ltb_spec i (length lines)) as [Hlt|Hge];
    try discriminate; try tauto.
  destruct (length lines - i) as [|n] eqn:En; [lia|].
  destruct (parse_step lines i) as [j new] eqn:Hs. intros H.
  destruct (parse_step_progress _ _ _ _ Hs) as [Hij|[-> ->]].
  - apply parse_loop_mono with (fuel := length lines - j); [|lia].
    now apply IH.
  - now rewrite (parse_loop_stuck lines i Hlt Hs) in H.
Qed.

(** [segment] answers [None] exactly when no amount of fuel ends the loop. *)
Lemma segment_None_iff (lines : list str) :
  segment lines = None <-> forall fuel, parse_loop fuel lines 0 [] = None.
Proof.
  unfold segment. split.
  - intros H fuel. destruct (parse_loop fuel lines 0 []) as [r|] eqn:E;
      [|reflexivity].
    apply parse_loop_enough in E. rewrite Nat.sub_0_r in E. congruence.
  - intros H. apply H.
Qed.

Lemma segment_Some_iff (lines : list str) (r : list Block) :
  segment lines = Some r <-> exists fuel, parse_loop fuel lines 0 [] = Some r.
Proof.
  unfold segment. split.
  - intros H. now exists (length lines).
  - intros [fuel E]. apply parse_loop_enough in E.
    now rewrite Nat.sub_0_r in E.
Qed.

(** ** Stripping *)

Section Stripping.
Variable p : ascii -> bool.

Lemma forallb_rev (w : str) : forallb p (rev w) = forallb p w.
Proof.
  induction w as [|c w IH]; simpl; [reflexivity|].
  rewrite forallb_app, IH. simpl. rewrite andb_true_r. apply andb_comm.
Qed.

Lemma lstrip_by_split (s : str) :
  exists w, s = w ++ lstrip_by p s /\ forallb p w = true.
Proof.
  induction s as [|c s [w [E F]]]; simpl.
  - now exists [].
  - destruct (p c) eqn:Hc.
    + exists (c :: w). simpl. rewrite Hc, F. now rewrite <- E.
    + now exists [].
Qed.

Lemma lstrip_by_app (w x : str) :
  forallb p w = true -> lstrip_by p (w ++ x) = lstrip_by p x.
Proof.
  induction w as [|c w IH]; simpl; [reflexivity|].
  intros H. apply andb_prop in H as [Hc Hw]. now rewrite Hc, IH.
Qed.

Lemma lstrip_by_keep (c : ascii) (t : str) :
  p c = false -> lstrip_by p (c :: t) = c :: t.
Proof. intros H. simpl. now rewrite H. Qed.

Lemma rstrip_by_split (s : str) :
  exists w, s = rstrip_by p s ++ w /\ forallb p w = true.
Proof.
  unfold rstrip_by. destruct (lstrip_by_split (rev s)) as [w [E F]].
  exists (rev w). rewrite forallb_rev. split; [|exact F].
  rewrite <- rev_app_distr, <- E. symmetry. apply rev_involutive.
Qed.

Lemma rstrip_by_app (x w : str) :
  forallb p w = true -> rstrip_by p (x ++ w) = rstrip_by p x.
Proof.
  intros H. unfold rstrip_by. rewrite rev_app_distr, lstrip_by_app;
    [reflexivity|]. now rewrite forallb_rev.
Qed.

Lemma rstrip_by_keep (t : str) (c : ascii) :
  p c = false -> rstrip_by p (t ++ [c]) = t ++ [c].
Proof.
  intros H. unfold rstrip_by. rewrite rev_app_distr. simpl.
  rewrite H. simpl. now rewrite rev_involutive.
Qed.

Lemma strip_by_split (s : str) :
  exists w1 w2, s = w1 ++ strip_by p s ++ w2
                /\ forallb p w1 = true /\ forallb p w2 = true.
Proof.
  unfold strip_by. destruct (lstrip_by_split s) as [w1 [E1 F1]].
  destruct (rstrip_by_split (lstrip_by p s)) as [w2 [E2 F2]].
  exists w1, w2. now rewrite <- E2, <- E1.
Qed.

(** Stripping a string that is bracketed by two kept characters. *)
Lemma strip_by_bracket (w1 w2 body : str) (a b : ascii) :
  forallb p w1 = true -> forallb p w2 = true ->
  p a = false -> p b = false ->
  strip_by p (w1 ++ a :: body ++ b :: w2) = a :: body ++ [b].
Proof.
  intros F1 F2 Ha Hb. unfold strip_by.
  rewrite lstrip_by_app, lstrip_by_keep by assumption.
  replace (a :: body ++ b :: w2) with (((a :: body) ++ [b]) ++ w2)
    by (rewrite <- app_assoc; reflexivity).
  rewrite rstrip_by_app by assumption. now apply rstrip_by_keep.
Qed.

(** What [s.lstrip] removes is the leading run of stripped characters. *)
Lemma lstrip_by_take_while (s : str) :
  s = take_while p s ++ lstrip_by p s.
Proof.
  induction s as [|c s IH]; simpl; [reflexivity|].
  destruct (p c); simpl; [now rewrite <- IH|reflexivity].
Qed.
End Stripping.

(** ** What the matcher accepts *)

Lemma star_rests_In (p : ascii -> bool) (s rest : str) :
  In rest (star_rests p s) <->
  exists m, s = m ++ rest /\ forallb p m = true.
Proof.
  induction s as [|c s IH]; simpl.
  - split.
    + intros [<-|[]]. now exists [].
    + intros [m [E _]]. symmetry in E. apply app_eq_nil in E as [_ ->].
      now left.
  - destruct (p c) eqn:Hc.
    + rewrite in_app_iff, IH. simpl. split.
      * intros [[m [-> F]]|[<-|[]]].
        -- exists (c :: m). simpl. now rewrite Hc, F.
        -- now exists [].
      * intros [[|x m] [E F]]; simpl in *.
        -- right. left. congruence.
        -- injection E as -> ->. apply andb_prop in F as [_ F].
           left. now exists m.
    + simpl. split.
      * intros [<-|[]]. now exists [].
      * intros [[|x m] [E F]]; simpl in *.
        -- left. congruence.
        -- injection E as -> ->. rewrite Hc in F. discriminate.
Qed.

Lemma plus_rests_In (p : ascii -> bool) (s rest : str) :
  In rest (bt (ClsPlus p) s) <->
  exists m, m <> [] /\ s = m ++ rest /\ forallb p m = true.
Proof.
  destruct s as [|c s]; simpl.
  - split; [intros []|]. intros [[|x m] [N [E _]]]; [congruence|discriminate].
  - destruct (p c) eqn:Hc.
    + rewrite star_rests_In. split.
      * intros [m [-> F]]. exists (c :: m). simpl. rewrite Hc, F.
        repeat split. discriminate.
      * intros [[|x m] [N [E F]]]; [congruence|]. simpl in *.
        injection E as -> ->. apply andb_prop in F as [_ F]. now exists m.
    + split; [intros []|]. intros [[|x m] [N [E F]]]; [congruence|].
      simpl in *. injection E as -> ->. rewrite Hc in F. discriminate.
Qed.

Lemma chr_rests_In (c : ascii) (s rest : str) :
  In rest (bt (Chr c) s) <-> s = c :: rest.
Proof.
  destruct s as [|x s]; simpl.
  - split; [intros []|discriminate].
  - destruct (Ascii.eqb_spec x c) as [->|N]; simpl.
    + split; [intros [<-|[]]; reflexivity|]. intros [= ->]. now left.
    + split; [intros []|]. intros [= -> ->]. congruence.
Qed.

Lemma cat_rests_In (r1 r2 : regex) (s rest : str) :
  In rest (bt (Cat r1 r2) s) <->
  exists mid, In mid (bt r1 s) /\ In rest (bt r2 mid).
Proof. simpl. apply in_flat_map. Qed.

Lemma eol_rests_In (s rest : str) :
  In rest (bt Eol s) <-> rest = s /\ (s = [] \/ s = newline).
Proof.
  unfold newline. destruct s as [|c [|d s]]; simpl.
  - split; [intros [<-|[]]; auto|]. intros [-> _]. now left.
  - destruct (Ascii.eqb_spec c "010") as [->|N]; simpl.
    + split; [intros [<-|[]]; auto|]. intros [-> _]. now left.
    + split; [intros []|]. intros [_ [E|E]]; congruence.
  - split; [intros []|]. intros [_ [E|E]]; discriminate.
Qed.

Lemma re_match_In (r : regex) (s : str) :
  re_match r s = true <-> exists rest, In rest (bt r s).
Proof.
  unfold re_match. destruct (bt r s) as [|x l]; simpl.
  - split; [discriminate|]. intros [rest []].
  - split; [|reflexivity]. intros _. exists x. now left.
Qed.

(** Every way to match leaves a suffix of the input. *)
Lemma bt_suffix (r : regex) (s rest : str) :
  In rest (bt r s) -> exists m, s = m ++ rest.
Proof.
  revert s rest. induction r as [c|p|p|r1 IH1 r2 IH2|r1 IH1 r2 IH2|];
    intros s rest H.
  - apply chr_rests_In in H. now exists [c].
  - apply star_rests_In in H as [m [E _]]. now exists m.
  - apply plus_rests_In in H as [m [_ [E _]]]. now exists m.
  - apply cat_rests_In in H as [mid [H1 H2]].
    apply IH1 in H1 as [m1 ->]. apply IH2 in H2 as [m2 ->].
    exists (m1 ++ m2). now rewrite app_assoc.
  - simpl in H. apply in_app_iff in H as [H|H]; eauto.
  - apply eol_rests_In in H as [-> _]. now exists [].
Qed.

Lemma match_here_app (r : regex) (s m rest : str) :
  match_here r s = Some (m, rest) -> s = m ++ rest.
Proof.
  unfold match_here. destruct (bt r s) as [|x l] eqn:E; [discriminate|].
  intros [= <- <-]. destruct (bt_suffix r s x) as [m E'].
  { rewrite E. now left. }
  clear E. subst s.
  rewrite length_app, Nat.add_sub, firstn_app, firstn_all.
  now rewrite Nat.sub_diag, app_nil_r.
Qed.

(** [re.split] loses nothing: its parts, put together, are the input. *)
Lemma split_loop_concat (fuel : nat) (r : regex) (pending s : str) :
  concat (split_loop fuel r pending s) = rev pending ++ s.
Proof.
  revert pending s. induction fuel as [|fuel IH]; intros pending s; simpl.
  - now rewrite app_nil_r.
  - destruct (match_here r s) as [[m rest]|] eqn:E.
    + simpl. rewrite IH. simpl. now rewrite (match_here_app _ _ _ _ E).
    + destruct s as [|c t]; simpl.
      * now rewrite app_nil_r.
      * rewrite IH. simpl. now rewrite <- app_assoc.
Qed.

Lemma re_split_concat (r : regex) (s : str) : concat (re_split r s) = s.
Proof. unfold re_split. now rewrite split_loop_concat. Qed.

(** ** The two separator patterns *)

(** [^\s*\|[\s\-:|]+\|\s*$] accepts exactly: whitespace, a pipe, one or more
    characters of the class, a pipe, whitespace. *)
Lemma table_sep_re_shape (s : str) :
  re_match table_sep_re s = true <->
  exists w1 body w2,
    s = w1 ++ "|"%char :: body ++ "|"%char :: w2
    /\ forallb isspace w1 = true /\ body <> []
    /\ forallb sep_class body = true /\ forallb isspace w2 = true.
Proof.
  rewrite re_match_In. unfold table_sep_re. split.
  - intros [rest H].
    apply cat_rests_In in H as [s1 [H1 H]].
    apply star_rests_In in H1 as [w1 [-> F1]].
    apply cat_rests_In in H as [s2 [H2 H]]. apply chr_rests_In in H2 as ->.
    apply cat_rests_In in H as [s3 [H3 H]].
    apply plus_rests_In in H3 as [body [N [-> Fb]]].
    apply cat_rests_In in H as [s4 [H4 H]]. apply chr_rests_In in H4 as ->.
    apply cat_rests_In in H as [s5 [H5 H]].
    apply star_rests_In in H5 as [w2 [-> F2]].
    apply eol_rests_In in H as [-> E].
    exists w1, body, (w2 ++ s5). repeat split; try assumption.
    rewrite forallb_app, F2. destruct E as [->| ->]; reflexivity.
  - intros [w1 [body [w2 [-> [F1 [N [Fb F2]]]]]]]. exists [].
    apply cat_rests_In. exists ("|"%char :: body ++ "|"%char :: w2). split.
    { apply star_rests_In. now exists w1. }
    apply cat_rests_In. exists (body ++ "|"%char :: w2). split.
    { now apply chr_rests_In. }
    apply cat_rests_In. exists ("|"%char :: w2). split.
    { apply plus_rests_In. now exists body. }
    apply cat_rests_In. exists w2. split.
    { now apply chr_rests_In. }
    apply cat_rests_In. exists []. split.
    { apply star_rests_In. exists w2. now rewrite app_nil_r. }
    apply eol_rests_In. auto.
Qed.

(** The same, on the trimmed line: it starts with a pipe, ends with a pipe,
    and holds one or more characters of the class in between. *)
Lemma table_sep_re_strip (s : str) :
  re_match table_sep_re s = true <->
  exists body,
    strip s = "|"%char :: body ++ ["|"%char]
    /\ body <> [] /\ forallb sep_class body = true.
Proof.
  rewrite table_sep_re_shape. split.
  - intros [w1 [body [w2 [-> [F1 [N [Fb F2]]]]]]]. exists body.
    repeat split; try assumption. unfold strip.
    now apply strip_by_bracket.
  - intros [body [E [N Fb]]]. unfold strip in E.
    destruct (strip_by_split isspace s) as [w1 [w2 [Es [F1 F2]]]].
    exists w1, body, w2. repeat split; try assumption.
    rewrite Es at 1. rewrite E. simpl. now rewrite <- app_assoc.
Qed.

(** [^[\s\-:|]+$] accepts exactly the non-empty strings of the class. *)
Lemma sep_row_re_shape (x : str) :
  re_match sep_row_re x = true <-> x <> [] /\ forallb sep_class x = true.
Proof.
  rewrite re_match_In. unfold sep_row_re. split.
  - intros [rest H]. apply cat_rests_In in H as [s1 [H1 H]].
    apply plus_rests_In in H1 as [m [N [-> F]]].
    apply eol_rests_In in H as [-> E]. split.
    + destruct m; [congruence|discriminate].
    + rewrite forallb_app, F. destruct E as [->| ->]; reflexivity.
  - intros [N F]. exists []. apply cat_rests_In. exists []. split.
    + apply plus_rests_In. exists x. now rewrite app_nil_r.
    + apply eol_rests_In. auto.
Qed.

(** ** The line under the cursor *)

Lemma cursor_split (lines : list str) (i : nat) (line : str) :
  nth_error lines i = Some line ->
  exists after,
    skipn i lines = line :: after /\ skipn (S i) lines = after
    /\ length lines = S i + length after.
Proof.
  intros H. apply nth_error_split in H as [before [after [-> <-]]].
  exists after. repeat split.
  - now rewrite skipn_app, skipn_all, Nat.sub_diag.
  - replace (S (length before)) with (length (before ++ [line]))
      by (rewrite length_app; simpl; lia).
    replace (before ++ line :: after) with ((before ++ [line]) ++ after)
      by (rewrite <- app_assoc; reflexivity).
    now rewrite skipn_app, skipn_all, Nat.sub_diag.
  - rewrite length_app. simpl. lia.
Qed.

Lemma hd_error_skipn {A : Type} (n : nat) (l : list A) :
  hd_error (skipn n l) = nth_error l n.
Proof.
  revert l. induction n as [|n IH]; intros [|x l]; simpl; auto.
Qed.

Lemma str_eqb_eq (a b : str) : str_eqb a b = true -> a = b.
Proof.
  revert b. induction a as [|x a IH]; intros [|y b]; simpl;
    try discriminate; [reflexivity|].
  intros H. apply andb_prop in H as [Hx Hab].
  apply Ascii.eqb_eq in Hx. subst. f_equal. now apply IH.
Qed.

Lemma startswith_head (s : str) (c : ascii) (prefix : str) :
  startswith s (c :: prefix) = true -> exists t, s = c :: t.
Proof.
  destruct s as [|x t]; simpl; [discriminate|]. intros H.
  apply andb_prop in H as [H _]. apply Ascii.eqb_eq in H. subst. now exists t.
Qed.

(** The first character of the trimmed line is the first character of the
    line when that one is not whitespace. *)
Lemma strip_head (c : ascii) (t : str) :
  isspace c = false -> exists t', strip (c :: t) = c :: t'.
Proof.
  intros Hc. unfold strip, strip_by. rewrite lstrip_by_keep by assumption.
  destruct (rstrip_by_split isspace (c :: t)) as [w [E F]].
  destruct (rstrip_by isspace (c :: t)) as [|x t'].
  - simpl in E. subst w. simpl in F. now rewrite Hc in F.
  - injection E as -> _. now exists t'.
Qed.

(** A fence line is neither a heading nor a rule, so the cursor that stands
    on it opens a code block. *)
Lemma fence_not_heading (line : str) :
  is_fence line = true -> startswith line (lit "#") = false.
Proof.
  intros H. destruct (startswith line (lit "#")) eqn:E; [|reflexivity].
  apply startswith_head in E as [t ->]. unfold is_fence in H.
  destruct (strip_head "#" t eq_refl) as [t' E]. rewrite E in H.
  discriminate.
Qed.

Lemma fence_not_rule (line : str) :
  is_fence line = true -> is_rule line = false.
Proof.
  intros H. destruct (is_rule line) eqn:E; [|reflexivity].
  unfold is_rule in E. apply existsb_exists in E as [r [Hr E]].
  apply str_eqb_eq in E. unfold is_fence in H. rewrite E in H.
  simpl in Hr. destruct Hr as [<-|[<-|[<-|[]]]]; discriminate.
Qed.

(** A line with a pipe is neither blank nor a rule. *)
Lemma has_pipe_In (line : str) :
  has_pipe line = true <-> In "|"%char line.
Proof.
  unfold has_pipe, mem. rewrite existsb_exists. split.
  - intros [c [Hc E]]. apply Ascii.eqb_eq in E. now subst c.
  - intros H. exists "|"%char. split; [exact H|reflexivity].
Qed.

Lemma space_no_pipe (w : str) : forallb isspace w = true -> ~ In "|"%char w.
Proof.
  intros F H. rewrite forallb_forall in F. apply F in H. discriminate.
Qed.

Lemma has_pipe_strip (line : str) :
  has_pipe line = true -> has_pipe (strip line) = true.
Proof.
  rewrite !has_pipe_In. intros H.
  destruct (strip_by_split isspace line) as [w1 [w2 [Es [F1 F2]]]].
  fold (strip line) in Es. rewrite Es in H.
  apply in_app_iff in H as [H|H]; [now apply space_no_pipe in H|].
  apply in_app_iff in H as [H|H]; [exact H|now apply space_no_pipe in H].
Qed.

Lemma has_pipe_nonblank (line : str) :
  has_pipe line = true -> nonblank line = true.
Proof.
  intros H. apply has_pipe_strip, has_pipe_In in H. unfold nonblank.
  destruct (strip line); [destruct H|reflexivity].
Qed.

Lemma has_pipe_not_rule (line : str) :
  has_pipe line = true -> is_rule line = false.
Proof.
  intros H. destruct (is_rule line) eqn:E; [|reflexivity].
  unfold is_rule in E. apply existsb_exists in E as [r [Hr E]].
  apply str_eqb_eq in E. apply has_pipe_strip in H. rewrite E in H.
  simpl in Hr. destruct Hr as [<-|[<-|[<-|[]]]]; discriminate.
Qed.

Lemma take_while_ext {A : Type} (p q : A -> bool) (l : list A) :
  (forall x, p x = q x) -> take_while p l = take_while q l.
Proof.
  intros H. induction l as [|x l IH]; simpl; [reflexivity|].
  now rewrite H, IH.
Qed.

(** [len(line) - len(line.lstrip("#"))] counts the leading [#]. *)
Lemma heading_level_count (line : str) :
  length line - length (lstrip_chars line (lit "#")) =
  length (take_while (fun c => Ascii.eqb c "#") line).
Proof.
  unfold lstrip_chars.
  rewrite (lstrip_by_take_while (fun c => mem c (lit "#")) line) at 1.
  rewrite length_app, Nat.add_sub. f_equal. apply take_while_ext.
  intros c. unfold mem. simpl. apply orb_false_r.
Qed.

(** ** The branches of a turn *)

(** Only the table branch appends a [Table]. *)
Lemma parse_step_table_inv (lines : list str) (i j : nat)
  (new : list Block) (rows : list (list str)) :
  parse_step lines i = (j, new) -> In (Table rows) new ->
  exists line after,
    skipn i lines = line :: after
    /\ startswith line (lit "#") = false /\ is_fence line = false
    /\ has_pipe line = true /\ table_lookahead after = true
    /\ j = i + length (table_run lines i)
    /\ new = [Table rows]
    /\ rows = kept_rows (table_run lines i).
Proof.
  unfold parse_step, table_run, kept_rows.
  destruct (skipn i lines) as [|line after] eqn:E.
  { intros [= <- <-] []. }
  destruct (startswith line (lit "#")) eqn:H1.
  { intros [= <- <-] [H|[]]. discriminate. }
  destruct (is_rule line); [intros [= <- <-] []|].
  destruct (is_fence line) eqn:H3.
  { rewrite code_loop_eq. intros [= <- <-] [H|[]]. discriminate. }
  destruct (has_pipe line) eqn:Hp; cbn [andb].
  - destruct (table_lookahead after) eqn:H5.
    + rewrite table_loop_eq, app_nil_l.
      intros [= <- <-] [[= <-]|[]]. exists line, after. now repeat split.
    + destruct (negb (nonblank line)); [intros [= <- <-] []|].
      rewrite para_loop_eq. simpl.
      destruct (para_guard line after); simpl; intros [= <- <-] H;
        [destruct H as [H|[]]; discriminate|destruct H].
  - destruct (negb (nonblank line)); [intros [= <- <-] []|].
    rewrite para_loop_eq. simpl.
    destruct (para_guard line after); simpl; intros [= <- <-] H;
      [destruct H as [H|[]]; discriminate|destruct H].
Qed.

(** The table branch, when the cursor reaches it. *)
Lemma parse_step_table (lines : list str) (i : nat) (line : str)
  (after : list str) :
  skipn i lines = line :: after ->
  startswith line (lit "#") = false -> is_fence line = false ->
  has_pipe line = true -> table_lookahead after = true ->
  parse_step lines i =
  (i + length (table_run lines i), [Table (kept_rows (table_run lines i))]).
Proof.
  intros E H1 H3 H4 H5. unfold parse_step, table_run, kept_rows.
  rewrite E, H1, (has_pipe_not_rule _ H4), H3, H4, H5. cbn [andb].
  now rewrite table_loop_eq, app_nil_l.
Qed.

(** The paragraph branch, for a pipe line whose lookahead fails. *)
Lemma parse_step_pipe_paragraph (lines : list str) (i : nat) (line : str)
  (after : list str) :
  skipn i lines = line :: after ->
  startswith line (lit "#") = false -> is_fence line = false ->
  has_pipe line = true -> table_lookahead after = false ->
  parse_step lines i =
  (i + length (para_run (skipn i lines)),
   paragraph_of (para_run (skipn i lines))).
Proof.
  intros E H1 H3 H4 H5. unfold parse_step, paragraph_of.
  rewrite E, H1, (has_pipe_not_rule _ H4), H3, H4, H5. cbn [andb].
  rewrite (has_pipe_nonblank _ H4). cbn [negb].
  now rewrite para_loop_eq, app_nil_l.
Qed.

(** A line with a pipe that is not a heading or a fence, followed by a line
    with a pipe that is not a table separator: the table test fails on its
    regular expression, the paragraph loop refuses the line on the weaker
    test ["|" in lines[i + 1]], and the turn changes nothing. *)
Lemma pipe_pair_no_progress (lines : list str) (i : nat)
  (line next : str) (rest : list str) :
  skipn i lines = line :: next :: rest ->
  startswith line (lit "#") = false -> is_fence line = false ->
  has_pipe line = true -> has_pipe next = true ->
  re_match table_sep_re next = false ->
  parse_step lines i = (i, []).
Proof.
  intros E H1 H3 H4 H5 H6.
  rewrite (parse_step_pipe_paragraph lines i line (next :: rest))
    by assumption.
  rewrite E. simpl. unfold para_guard. rewrite H4, H5. simpl.
  rewrite andb_false_r. simpl. now rewrite Nat.add_0_r.
Qed.

(** The separator test inside a table: the line, trimmed and without its
    outer pipes, is not empty and holds only characters of the class. *)
Lemma is_sep_row_shape (line : str) :
  is_sep_row line = true <->
  strip_chars (strip line) (lit "|") <> []
  /\ forallb sep_class (strip_chars (strip line) (lit "|")) = true.
Proof. unfold is_sep_row. apply sep_row_re_shape. Qed.

(** A separator row holds only characters of the class. *)
Lemma sep_row_class (line : str) :
  is_sep_row line = true -> forallb sep_class (strip line) = true.
Proof.
  intros H. apply is_sep_row_shape in H as [_ F].
  destruct (strip_by_split (fun c => mem c (lit "|")) (strip line))
    as [p1 [p2 [E [F1 F2]]]].
  fold (strip_chars (strip line) (lit "|")) in E.
  assert (P : forall p, forallb (fun c => mem c (lit "|")) p = true ->
                        forallb sep_class p = true).
  { intros p Fp. apply forallb_forall. intros c Hc.
    rewrite forallb_forall in Fp. apply Fp in Hc. unfold mem in Hc.
    simpl in Hc. rewrite orb_false_r in Hc. unfold sep_class.
    rewrite Hc. apply orb_true_r. }
  rewrite E, !forallb_app, F, (P _ F1), (P _ F2). reflexivity.
Qed.

Lemma sep_row_not_heading (line : str) :
  is_sep_row line = true -> startswith line (lit "#") = false.
Proof.
  intros H. destruct (startswith line (lit "#")) eqn:E; [|reflexivity].
  apply startswith_head in E as [t ->]. apply sep_row_class in H.
  destruct (strip_head "#" t eq_refl) as [t' E]. rewrite E in H.
  discriminate.
Qed.

Lemma sep_row_not_fence (line : str) :
  is_sep_row line = true -> is_fence line = false.
Proof.
  intros H. destruct (is_fence line) eqn:E; [|reflexivity].
  unfold is_fence in E. apply startswith_head in E as [t E].
  apply sep_row_class in H. rewrite E in H. discriminate.
Qed.

(** A turn stalls exactly on a stall pair. *)
Lemma parse_step_stalls_iff (lines : list str) (i : nat) :
  i < length lines ->
  (parse_step lines i = (i, []) <-> stalls_at lines i = true).
Proof.
  intros Hi. unfold stalls_at.
  destruct (skipn i lines) as [|line after] eqn:E.
  { apply (f_equal (@length str)) in E. rewrite length_skipn in E.
    simpl in E. lia. }
  split.
  - unfold parse_step. rewrite E.
    destruct (startswith line (lit "#")) eqn:H1; [intros [= H]; lia|].
    destruct (is_rule line); [intros [= H]; lia|].
    destruct (is_fence line) eqn:H3.
    { rewrite code_loop_eq. intros [= H]; lia. }
    destruct (has_pipe line) eqn:H4; cbn [andb].
    + destruct (table_lookahead after) eqn:H5.
      { rewrite table_loop_eq. simpl. rewrite H4. simpl. intros [= H]; lia. }
      destruct (negb (nonblank line)); [intros [= H]; lia|].
      rewrite para_loop_eq. simpl. unfold para_guard at 1 2.
      rewrite H1, H3, H4, (has_pipe_nonblank _ H4). cbn [andb negb].
      destruct after as [|next rest]; [simpl; intros [= H]; lia|].
      destruct (has_pipe next) eqn:H6; [|simpl; intros [= H]; lia].
      intros _. unfold stall_pair. rewrite H1, H3, H4, H6.
      simpl in H5. now rewrite H5.
    + destruct (negb (nonblank line)) eqn:Hb; [intros [= H]; lia|].
      rewrite para_loop_eq. simpl. unfold para_guard at 1 2.
      apply negb_false_iff in Hb. rewrite H1, H3, H4, Hb. simpl.
      intros [= H]; lia.
  - destruct after as [|next rest]; [discriminate|]. unfold stall_pair.
    intros H. apply andb_prop in H as [H H6]. apply andb_prop in H as [H H5].
    apply andb_prop in H as [H H4]. apply andb_prop in H as [H1 H3].
    apply negb_true_iff in H1, H3, H6.
    now apply (pipe_pair_no_progress lines i line next rest).
Qed.

(** The loop never ends once the cursor stands on a stall pair. *)
Lemma parse_loop_stalls (lines : list str) (i : nat) :
  stalls_at lines i = true ->
  forall fuel blocks, parse_loop fuel lines i blocks = None.
Proof.
  intros H.
  assert (Hi : i < length lines).
  { unfold stalls_at in H. destruct (Nat.lt_ge_cases i (length lines)) as [L|L];
      [exact L|]. rewrite skipn_all2 in H by exact L. discriminate. }
  apply parse_loop_stuck; [exact Hi|]. now apply parse_step_stalls_iff.
Qed.

(** Without a stall pair every turn moves the cursor and the loop ends. *)
Lemma parse_loop_ends (lines : list str) :
  (forall i, stalls_at lines i = false) ->
  forall n i blocks,
    length lines - i <= n -> exists r, parse_loop n lines i blocks = Some r.
Proof.
  intros Hno n. induction n as [|n IH]; intros i blocks Hn;
    rewrite parse_loop_unfold;
    destruct (Nat.ltb_spec i (length lines)) as [Hlt|Hge];
    try lia; try (now exists blocks).
  destruct (parse_step lines i) as [j new] eqn:Hs.
  destruct (parse_step_progress _ _ _ _ Hs) as [Hij|[-> ->]].
  - apply IH. lia.
  - apply parse_step_stalls_iff in Hs; [|exact Hlt].
    rewrite Hno in Hs. discriminate.
Qed.

(** The turns that stall are exactly those on a stall pair, and the loop
    never leaves one: this is the only way [parse_markdown] fails to
    return. *)
Theorem turn_stalls_exactly_on_stall_pair (lines : list str) (i : nat) :
  i < length lines ->
  (parse_step lines i = (i, []) <-> stalls_at lines i = true)
  /\ (stalls_at lines i = true ->
      forall fuel blocks, parse_loop fuel lines i blocks = None).
Proof.
  intros Hi. split; [now apply parse_step_stalls_iff|].
  apply parse_loop_stalls.
Qed.

Lemma turn_stalls_exactly_on_stall_pair_witness :
  parse_loop 1000 [lit "intro"; lit "k | v"; lit "1 | 2"] 1
    [Paragraph (lit "intro")] = None.
Proof.
  refine (proj2 (turn_stalls_exactly_on_stall_pair
                   [lit "intro"; lit "k | v"; lit "1 | 2"] 1 _) eq_refl
            1000 [Paragraph (lit "intro")]).
  simpl. lia.
Defined.

(** [parse_markdown] returns on every text whose lines hold no stall pair:
    in particular on every text without two pipe lines in a row. *)
Theorem segment_total_without_stall_pair (lines : list str) :
  (forall i, stalls_at lines i = false) ->
  exists blocks, segment lines = Some blocks.
Proof.
  intros Hno. unfold segment. apply (parse_loop_ends lines Hno). lia.
Qed.

Lemma segment_total_without_stall_pair_witness :
  exists blocks,
    segment [lit "# T"; lit "a | b"; lit ""; lit "|x|"; lit "|-|"] =
    Some blocks.
Proof.
  apply segment_total_without_stall_pair.
  intros [|[|[|[|[|i]]]]]; try reflexivity.
  unfold stalls_at. simpl. now destruct i.
Defined.

(** A line of pipes only passes the lookahead, but nothing is left of it
    without its outer pipes: it is not a separator row, and its one empty
    cell is kept as a row. *)
Lemma pipes_only_line_is_kept :
  table_lookahead [lit "|||"] = true
  /\ is_sep_row (lit "|||") = false
  /\ segment [lit "|a|"; lit "|||"] = Some [Table [[lit "a"]; [[]]]].
Proof. repeat split. Qed.

(** * The block parser *)

(** ** Termination *)

(** C1, at the input ["a | b\nc | d"]: the parse loop never ends.  The turn
    at line 0 leaves the cursor at 0 and appends nothing, so whatever the
    number of turns allowed, [parse_markdown] is still running. *)
Theorem parse_markdown_pipe_pair_diverges :
  let text := lit "a | b" ++ newline ++ lit "c | d" in
  split text "010" = [lit "a | b"; lit "c | d"]
  /\ parse_step (split text "010") 0 = (0, [])
  /\ (forall fuel, parse_markdown_fuel fuel text = None)
  /\ parse_markdown text = None.
Proof.
  cbv zeta. split; [reflexivity|]. split; [reflexivity|].
  assert (H : forall fuel,
             parse_markdown_fuel fuel (lit "a | b" ++ newline ++ lit "c | d")
             = None).
  { intros fuel. unfold parse_markdown_fuel.
    apply parse_loop_stuck; [simpl; lia|reflexivity]. }
  split; [exact H|]. apply segment_None_iff. exact H.
Qed.

(** ** Headings *)

(** C6, as the code has it: a line that itself starts with [#] (the test is
    on the raw line, not on its trimmed content) gives one [Heading] whose
    level is the number of leading [#] and whose text is the rest of the
    line, trimmed; the cursor moves one line.  And [["### Title"]] parses to
    [Heading 3 "Title"] alone. *)
Theorem heading_of_hash_line :
  (forall (lines : list str) (i : nat) (line : str),
      nth_error lines i = Some line ->
      startswith line (lit "#") = true ->
      parse_step lines i =
      (S i, [Heading (length (take_while (fun c => Ascii.eqb c "#") line))
                     (strip (lstrip_chars line (lit "#")))]))
  /\ segment [lit "### Title"] = Some [Heading 3 (lit "Title")].
Proof.
  split; [|reflexivity].
  intros lines i line Hn Hs.
  apply cursor_split in Hn as [after [E _]].
  unfold parse_step. rewrite E, Hs. now rewrite heading_level_count.
Qed.

Lemma heading_of_hash_line_witness :
  parse_step [lit "intro"; lit "## Scope  "] 1 =
  (2, [Heading 2 (lit "Scope")]).
Proof.
  exact (proj1 heading_of_hash_line [lit "intro"; lit "## Scope  "] 1
           (lit "## Scope  ") eq_refl eq_refl).
Defined.

(** C6, as the claim states it, fails on an indented heading: the trimmed
    content of ["  # Title"] starts with [#], and the line becomes a
    paragraph, with its indentation, not a heading. *)
Lemma indented_hash_line_is_paragraph :
  startswith (strip (lit "  # Title")) (lit "#") = true
  /\ segment [lit "  # Title"] = Some [Paragraph (lit "  # Title")]
  /\ segment [lit "  # Title"] <> Some [Heading 1 (lit "Title")].
Proof. repeat split. discriminate. Qed.

(** ** Fenced code *)



(** ** Tables *)

(** C4, as the code has it.  The lookahead after a line succeeds exactly
    when there is a next line that, trimmed, starts with a pipe, ends with a
    pipe and holds between the two one or more characters, all of them [-],
    [:], [|] or whitespace.  A line that is not a heading or a fence starts
    a table exactly when it holds a pipe and the lookahead succeeds; a pipe
    line whose lookahead fails goes to the paragraph branch, and no turn
    appends a table when the lookahead fails.  And
    [["a | b"; "not a separator"]] parses to one paragraph. *)
Theorem table_needs_piped_separator :
  (forall (lines : list str) (i : nat),
      table_lookahead (skipn (S i) lines) = true <->
      exists next body,
        nth_error lines (S i) = Some next
        /\ strip next = "|"%char :: body ++ ["|"%char]
        /\ body <> [] /\ forallb sep_class body = true)
  /\ (forall (lines : list str) (i : nat) (line : str),
         nth_error lines i = Some line ->
         startswith line (lit "#") = false -> is_fence line = false ->
         ((exists j rows, parse_step lines i = (j, [Table rows])) <->
          has_pipe line = true /\ table_lookahead (skipn (S i) lines) = true))
  /\ (forall (lines : list str) (i : nat) (line : str),
         nth_error lines i = Some line ->
         startswith line (lit "#") = false -> is_fence line = false ->
         has_pipe line = true ->
         table_lookahead (skipn (S i) lines) = false ->
         parse_step lines i =
         (i + length (para_run (skipn i lines)),
          paragraph_of (para_run (skipn i lines))))
  /\ (forall (lines : list str) (i j : nat) (new : list Block) rows,
         table_lookahead (skipn (S i) lines) = false ->
         parse_step lines i = (j, new) -> ~ In (Table rows) new)
  /\ segment [lit "a | b"; lit "not a separator"] =
     Some [Paragraph (lit "a | b not a separator")].
Proof.
  split; [|split; [|split; [|split; [|reflexivity]]]].
  - intros lines i. unfold table_lookahead.
    pose proof (hd_error_skipn (S i) lines) as Hh.
    destruct (skipn (S i) lines) as [|next rest]; cbn [hd_error] in Hh.
    + split; [discriminate|]. intros [next [body [Hn _]]]. congruence.
    + rewrite table_sep_re_strip. split.
      * intros [body H]. exists next, body. now split.
      * intros [next' [body [Hn H]]]. exists body.
        rewrite <- Hh in Hn. now injection Hn as ->.
  - intros lines i line Hn H1 H3.
    apply cursor_split in Hn as [after [E [E' _]]]. rewrite E'. split.
    + intros [j [rows Hs]].
      destruct (parse_step_table_inv lines i j [Table rows] rows Hs)
        as [line' [after' [Ei [_ [_ [Hp [Hl _]]]]]]]; [now left|].
      rewrite E in Ei. injection Ei as <- <-. now split.
    + intros [Hp Hl]. eexists. eexists.
      now apply (parse_step_table lines i line after).
  - intros lines i line Hn H1 H3 Hp Hl.
    apply cursor_split in Hn as [after [E [E' _]]]. rewrite E' in Hl.
    now apply (parse_step_pipe_paragraph lines i line after).
  - intros lines i j new rows Hl Hs Hin.
    destruct (parse_step_table_inv lines i j new rows Hs Hin)
      as [line [after [E [_ [_ [_ [Hl' _]]]]]]].
    assert (E' : skipn (S i) lines = after).
    { assert (Hn : nth_error lines i = Some line)
        by (rewrite <- hd_error_skipn, E; reflexivity).
      apply cursor_split in Hn as [after' [Ea [Eb _]]].
      rewrite E in Ea. now injection Ea as <-. }
    rewrite E' in Hl. congruence.
Qed.

Lemma table_needs_piped_separator_witness :
  exists j rows,
    parse_step [lit "| a |"; lit " |:-- |"; lit "| 1 |"] 0 =
    (j, [Table rows]).
Proof.
  apply (proj2 (proj1 (proj2 table_needs_piped_separator)
                  [lit "| a |"; lit " |:-- |"; lit "| 1 |"] 0 (lit "| a |")
                  eq_refl eq_refl eq_refl)).
  split; reflexivity.
Defined.

(** C4, as the claim states it, fails on a separator without its outer
    pipes: [---], trimmed and without leading or trailing pipes, holds only
    [-], and yet the lookahead after ["a | b"] fails and the two lines make
    one paragraph, no table. *)
Lemma bare_dashes_are_no_separator :
  has_pipe (lit "a | b") = true
  /\ forallb sep_class (strip_chars (strip (lit "---")) (lit "|")) = true
  /\ strip_chars (strip (lit "---")) (lit "|") = lit "---"
  /\ table_lookahead [lit "---"] = false
  /\ segment [lit "a | b"; lit "---"] = Some [Paragraph (lit "a | b ---")].
Proof. repeat split. Qed.

Lemma filter_none {A : Type} (p : A -> bool) (l : list A) :
  (forall x, In x l -> p x = false) -> filter p l = [].
Proof.
  induction l as [|x l IH]; simpl; intros H; [reflexivity|].
  rewrite (H x (or_introl eq_refl)). apply IH. intros y Hy. apply H.
  now right.
Qed.

Lemma table_run_head (lines : list str) (i : nat) (line : str)
  (after : list str) :
  skipn i lines = line :: after -> has_pipe line = true ->
  table_run lines i = line :: take_while has_pipe after.
Proof. intros E H. unfold table_run. rewrite E. simpl. now rewrite H. Qed.




(** C10: a table with no rows is a possible output.  When the line under
    the cursor holds a pipe, the lookahead succeeds and every line of the
    run of pipe lines, the first one included, is a separator row, the turn
    appends [Table []]; so do the lines [["|---|"; "|---|---|"]]. *)
Theorem table_of_separators_is_empty :
  (forall (lines : list str) (i : nat) (line : str),
      nth_error lines i = Some line ->
      has_pipe line = true ->
      table_lookahead (skipn (S i) lines) = true ->
      (forall l, In l (table_run lines i) -> is_sep_row l = true) ->
      parse_step lines i = (i + length (table_run lines i), [Table []]))
  /\ segment [lit "|---|"; lit "|---|---|"] = Some [Table []].
Proof.
  split; [|reflexivity].
  intros lines i line Hn Hp Hl Hall.
  apply cursor_split in Hn as [after [E [E' _]]]. rewrite E' in Hl.
  assert (Hsep : is_sep_row line = true).
  { apply Hall. rewrite (table_run_head lines i line after E Hp). now left. }
  rewrite (parse_step_table lines i line after E
             (sep_row_not_heading _ Hsep) (sep_row_not_fence _ Hsep) Hp Hl).
  unfold kept_rows. rewrite filter_none; [reflexivity|].
  intros l Hin. now rewrite (Hall l Hin).
Qed.

Lemma table_of_separators_is_empty_witness :
  parse_step [lit "intro"; lit "| - |"; lit "|:-:|"; lit "end"] 1 =
  (3, [Table []]).
Proof.
  refine (proj1 table_of_separators_is_empty
            [lit "intro"; lit "| - |"; lit "|:-:|"; lit "end"] 1
            (lit "| - |") eq_refl eq_refl eq_refl _).
  intros l [<-|[<-|[]]]; reflexivity.
Defined.

(** ** Paragraphs *)

(** C5, at the lines [["x"; "a | b"; "c | d"]].  ["c | d"] is not a table
    separator, so ["a | b"] is no table header and the guard with the table
    lookahead would take it into the paragraph; the guard of the code only
    asks whether the next line holds a pipe, and stops the paragraph after
    ["x"].  The cursor then stays on ["a | b"] for ever.  The example of the
    claim, which has no pipes, parses as the claim says. *)
Theorem paragraph_stops_at_pipe_pair :
  let lines := [lit "x"; lit "a | b"; lit "c | d"] in
  para_guard_with_lookahead (lit "a | b") [lit "c | d"] = true
  /\ para_guard (lit "a | b") [lit "c | d"] = false
  /\ parse_step lines 0 = (1, [Paragraph (lit "x")])
  /\ parse_step lines 1 = (1, [])
  /\ (forall fuel, parse_loop fuel lines 0 [] = None)
  /\ segment [lit "line one"; lit "line two"; lit ""; lit "# Heading"] =
     Some [Paragraph (lit "line one line two"); Heading 1 (lit "Heading")].
Proof.
  cbv zeta. repeat split.
  intros [|fuel]; [reflexivity|].
  rewrite parse_loop_unfold.
  change (parse_loop fuel [lit "x"; lit "a | b"; lit "c | d"] 1
            [Paragraph (lit "x")] = None).
  apply parse_loop_stuck; [simpl; lia|reflexivity].
Qed.

(** * The inline formatter *)

(** ** Loops that append or raise *)

Lemma append_loop_cons {A B : Type} (body : A -> option (list B)) (x : A)
  (l : list A) (start : list B) :
  append_loop body (x :: l) start =
  match body x with
  | Some new => append_loop body l (start ++ new)
  | None => None
  end.
Proof.
  unfold append_loop. cbn [fold_left]. destruct (body x); [reflexivity|].
  induction l as [|y l IH]; [reflexivity|exact IH].
Qed.

(** When no turn raises, the loop appends what every turn appends. *)
Lemma append_loop_all {A B : Type} (body : A -> option (list B))
  (l : list A) (start : list B) :
  (forall x, In x l -> body x <> None) ->
  append_loop body l start = Some (start ++ flat_map (appended body) l).
Proof.
  revert start. induction l as [|x l IH]; intros start H.
  - cbn. now rewrite app_nil_r.
  - rewrite append_loop_cons. cbn [flat_map].
    destruct (body x) as [new|] eqn:E.
    + rewrite IH by (intros y Hy; apply H; now right).
      assert (Ex : appended body x = new) by (unfold appended; now rewrite E).
      now rewrite Ex, app_assoc.
    + now destruct (H x (or_introl eq_refl)).
Qed.

(** One turn that raises makes the whole loop raise. *)
Lemma append_loop_raises {A B : Type} (body : A -> option (list B))
  (l : list A) (start : list B) (x : A) :
  In x l -> body x = None -> append_loop body l start = None.
Proof.
  revert start. induction l as [|y l IH]; intros start Hin Hx; [destruct Hin|].
  rewrite append_loop_cons. destruct Hin as [->|Hin].
  - now rewrite Hx.
  - destruct (body y); [now apply IH|reflexivity].
Qed.

Lemma append_loop_Some {A B : Type} (body : A -> option (list B))
  (l : list A) (start r : list B) :
  append_loop body l start = Some r ->
  (forall x, In x l -> body x <> None)
  /\ r = start ++ flat_map (appended body) l.
Proof.
  intros H.
  assert (N : forall x, In x l -> body x <> None).
  { intros x Hin E. rewrite (append_loop_raises body l start x Hin E) in H.
    discriminate. }
  split; [exact N|]. rewrite (append_loop_all body l start N) in H.
  now injection H.
Qed.

Lemma flat_map_single {A B : Type} (f : A -> list B) (g : A -> B)
  (l : list A) :
  (forall x, In x l -> f x = [g x]) -> flat_map f l = map g l.
Proof.
  induction l as [|x l IH]; intros H; simpl; [reflexivity|].
  rewrite (H x (or_introl eq_refl)), IH; [reflexivity|].
  intros y Hy. apply H. now right.
Qed.

Lemma forallb_false_In {A : Type} (p : A -> bool) (l : list A) :
  forallb p l = false -> exists x, In x l /\ p x = false.
Proof.
  induction l as [|x l IH]; simpl; [discriminate|].
  destruct (p x) eqn:E; simpl.
  - intros H. destruct (IH H) as [y [Hy Py]]. exists y. split; [now right|].
    exact Py.
  - intros _. exists x. split; [now left|exact E].
Qed.

(** ** The pattern has no empty match, so [re_split] never runs out of fuel *)

Lemma chr_first_shorter (c : ascii) (r : regex) (s rest : str) :
  In rest (bt (Cat (Chr c) r) s) -> length rest < length s.
Proof.
  intros H. apply cat_rests_In in H as [mid [H1 H2]].
  apply chr_rests_In in H1 as ->. apply bt_suffix in H2 as [m ->].
  simpl. rewrite length_app. lia.
Qed.

Lemma alt_rests_In (r1 r2 : regex) (s rest : str) :
  In rest (bt (Alt r1 r2) s) <-> In rest (bt r1 s) \/ In rest (bt r2 s).
Proof. simpl. apply in_app_iff. Qed.

Lemma inline_re_shorter (s rest : str) :
  In rest (bt inline_re s) -> length rest < length s.
Proof.
  unfold inline_re. intros H.
  apply alt_rests_In in H as [H|H]; [now apply chr_first_shorter in H|].
  apply alt_rests_In in H as [H|H]; now apply chr_first_shorter in H.
Qed.

Section SplitFuel.
Variable r : regex.
Hypothesis no_empty_match :
  forall s rest, In rest (bt r s) -> length rest < length s.

Lemma match_here_shorter (s m rest : str) :
  match_here r s = Some (m, rest) -> length rest < length s.
Proof.
  unfold match_here. destruct (bt r s) as [|x l] eqn:E; [discriminate|].
  intros [= _ <-]. apply no_empty_match. rewrite E. now left.
Qed.

Lemma split_loop_fuel (fuel fuel' : nat) (pending s : str) :
  length s < fuel -> length s < fuel' ->
  split_loop fuel r pending s = split_loop fuel' r pending s.
Proof.
  revert fuel' pending s.
  induction fuel as [|fuel IH]; intros [|fuel'] pending s H H'; try lia.
  simpl. destruct (match_here r s) as [[m rest]|] eqn:E.
  - apply match_here_shorter in E. f_equal. f_equal. apply IH; lia.
  - destruct s as [|c t]; [reflexivity|]. simpl in H, H'. apply IH; lia.
Qed.
End SplitFuel.

(** Any fuel above the length of the text gives [re_split]. *)
Lemma re_split_fuel (fuel : nat) (s : str) :
  length s < fuel -> split_loop fuel inline_re [] s = re_split inline_re s.
Proof.
  intros H. unfold re_split.
  apply (split_loop_fuel inline_re inline_re_shorter); lia.
Qed.

(** ** Parts and the runs made of them *)

Lemma startswith_app (s prefix : str) :
  startswith s prefix = true -> exists t, s = prefix ++ t.
Proof.
  revert s. induction prefix as [|a prefix IH]; intros s; simpl.
  - intros _. now exists s.
  - destruct s as [|b s]; [discriminate|]. intros H.
    apply andb_prop in H as [Hb Hs]. apply Ascii.eqb_eq in Hb. subst b.
    apply IH in Hs as [t ->]. now exists t.
Qed.

Lemma endswith_app (s suffix : str) :
  endswith s suffix = true -> exists t, s = t ++ suffix.
Proof.
  unfold endswith. intros H. apply startswith_app in H as [t E].
  exists (rev t). rewrite <- (rev_involutive s), E, rev_app_distr.
  now rewrite rev_involutive.
Qed.

(** A string long enough to hold both its prefix and its suffix holds them
    side by side. *)
Lemma both_ends (s prefix suffix : str) :
  startswith s prefix = true -> endswith s suffix = true ->
  length prefix + length suffix <= length s ->
  exists mid, s = prefix ++ mid ++ suffix.
Proof.
  intros Hp Hs Hlen. apply startswith_app in Hp as [t ->].
  apply endswith_app in Hs as [u E]. rewrite length_app in Hlen.
  exists (firstn (length t - length suffix) t). f_equal.
  assert (Et : t = skipn (length prefix) (u ++ suffix)).
  { rewrite <- E, skipn_app, skipn_all, Nat.sub_diag. reflexivity. }
  assert (Hu : length prefix <= length u).
  { apply (f_equal (@length ascii)) in E. rewrite !length_app in E. lia. }
  rewrite skipn_app in Et.
  replace (length prefix - length u) with 0 in Et by lia. simpl in Et.
  rewrite Et at 3. f_equal. rewrite Et at 2.
  rewrite length_app, Nat.add_sub, firstn_app, firstn_all, Nat.sub_diag.
  simpl. now rewrite app_nil_r.
Qed.

Lemma slice_bracket (prefix mid suffix : str) :
  slice (prefix ++ mid ++ suffix) (length prefix) (length suffix) = mid.
Proof.
  unfold slice. rewrite skipn_app, skipn_all, Nat.sub_diag. simpl.
  rewrite !length_app.
  replace (length prefix + (length mid + length suffix) - length suffix
           - length prefix) with (length mid) by lia.
  rewrite firstn_app, firstn_all, Nat.sub_diag. simpl. apply app_nil_r.
Qed.

Lemma run_source_of_part (part : str) :
  bare_marker part = false -> run_source (run_of_part part) = part.
Proof.
  intros Hb. unfold run_of_part.
  destruct (startswith part (lit "**") && endswith part (lit "**")) eqn:B.
  { apply andb_prop in B as [Bs Be].
    destruct (le_lt_dec 4 (length part)) as [L|L].
    - destruct (both_ends part (lit "**") (lit "**") Bs Be L) as [mid ->].
      pose proof (slice_bracket (lit "**") mid (lit "**")) as Hs.
      change (length (lit "**")) with 2 in Hs. now rewrite Hs.
    - exfalso. apply startswith_app in Bs as [q ->].
      destruct q as [|c [|d q]]; [discriminate| |simpl in L; lia].
      unfold endswith in Be. simpl in Be.
      destruct (Ascii.eqb_spec c "*"); [subst c|]; discriminate. }
  destruct (startswith part (lit "`") && endswith part (lit "`")) eqn:C.
  { apply andb_prop in C as [Cs Ce].
    destruct (le_lt_dec 2 (length part)) as [L|L].
    - destruct (both_ends part (lit "`") (lit "`") Cs Ce L) as [mid ->].
      pose proof (slice_bracket (lit "`") mid (lit "`")) as Hs.
      change (length (lit "`")) with 1 in Hs. now rewrite Hs.
    - exfalso. apply startswith_app in Cs as [q ->].
      destruct q as [|c q]; [discriminate|simpl in L; lia]. }
  destruct (startswith part (lit "*") && endswith part (lit "*")
            && negb (startswith part (lit "**"))) eqn:I.
  { apply andb_prop in I as [I _]. apply andb_prop in I as [Is Ie].
    destruct (le_lt_dec 2 (length part)) as [L|L].
    - destruct (both_ends part (lit "*") (lit "*") Is Ie L) as [mid ->].
      pose proof (slice_bracket (lit "*") mid (lit "*")) as Hs.
      change (length (lit "*")) with 1 in Hs. now rewrite Hs.
    - exfalso. apply startswith_app in Is as [q ->].
      destruct q as [|c q]; [discriminate|simpl in L; lia]. }
  unfold run_source. simpl. apply app_nil_r.
Qed.

Lemma concat_run_source (parts : list str) :
  forallb (fun p => negb (bare_marker p)) parts = true ->
  concat (map run_source (map run_of_part parts)) = concat parts.
Proof.
  induction parts as [|p parts IH]; simpl; [reflexivity|].
  intros H. apply andb_prop in H as [Hp Hs]. apply negb_true_iff in Hp.
  now rewrite (run_source_of_part p Hp), IH.
Qed.

(** ** When [add_formatted_text] raises *)

Lemma xml_text_app (a b : str) :
  xml_text (a ++ b) = xml_text a && xml_text b.
Proof. apply forallb_app. Qed.

Lemma xml_text_concat (parts : list str) :
  xml_text (concat parts) = forallb xml_text parts.
Proof.
  induction parts as [|p parts IH]; [reflexivity|]. cbn [concat forallb].
  now rewrite xml_text_app, IH.
Qed.

Lemma bare_marker_run (part : str) :
  bare_marker part = true ->
  run_text (run_of_part part) = [] /\ xml_text part = true.
Proof.
  unfold bare_marker. intros H. apply existsb_exists in H as [r [Hr H]].
  apply str_eqb_eq in H. subst part. simpl in Hr.
  destruct Hr as [<-|[<-|[<-|[<-|[]]]]]; split; reflexivity.
Qed.

(** The markers are characters XML takes, so the text of a run holds a
    character XML refuses exactly when its part does. *)
Lemma xml_text_run_of_part (part : str) :
  xml_text (run_text (run_of_part part)) = xml_text part.
Proof.
  destruct (bare_marker part) eqn:B.
  - apply bare_marker_run in B as [-> ->]. reflexivity.
  - pose proof (run_source_of_part part B) as E. rewrite <- E at 2.
    unfold run_source. rewrite !xml_text_app.
    destruct (run_of_part part); cbn [run_marker run_text];
      change (xml_text (lit "**")) with true;
      change (xml_text (lit "*")) with true;
      change (xml_text (lit "`")) with true;
      change (xml_text []) with true;
      cbn [andb]; now rewrite ?andb_true_r.
Qed.

Lemma add_run_of_part (part : str) :
  add_run (run_of_part part) =
  if xml_text part then Some [run_of_part part] else None.
Proof. unfold add_run. now rewrite xml_text_run_of_part. Qed.

(** [add_formatted_text] raises exactly on a text that holds a character
    XML refuses; on any other text it appends the runs of the parts. *)
Lemma add_formatted_text_eq (paragraph : list Run) (text : str) :
  add_formatted_text paragraph text =
  if xml_text text then Some (paragraph ++ part_runs text) else None.
Proof.
  unfold add_formatted_text, part_runs. cbv zeta.
  rewrite <- (re_split_concat inline_re text) at 2. rewrite xml_text_concat.
  destruct (forallb xml_text (re_split inline_re text)) eqn:F.
  - rewrite forallb_forall in F. rewrite append_loop_all.
    + f_equal. f_equal. apply flat_map_single.
      intros part Hin. unfold appended.
      now rewrite add_run_of_part, (F part Hin).
    + intros part Hin. now rewrite add_run_of_part, (F part Hin).
  - apply forallb_false_In in F as [part [Hin F]].
    apply (append_loop_raises _ _ _ part Hin).
    now rewrite add_run_of_part, F.
Qed.

Lemma tokenize_eq (text : str) :
  tokenize text = if xml_text text then Some (part_runs text) else None.
Proof. unfold tokenize. now rewrite add_formatted_text_eq. Qed.

(** ** Tokenization *)

(** C2, as the code has it.  The parts [re.split] cuts the text into cover
    it without gap or overlap: put together in order they are the text.
    [add_run] raises [ValueError] when the text holds a character XML
    refuses; on every other text one run is added per part.  Each run holds
    its part without the markers, so the runs give the text back once each
    is put between the markers of its kind again, provided no part is a bare
    marker (one of [`], [*], [**], [***]). *)
Theorem tokenize_lossless_with_markers (s : str) :
  concat (re_split inline_re s) = s
  /\ tokenize s =
     (if xml_text s then Some (map run_of_part (re_split inline_re s))
      else None)
  /\ (forallb (fun p => negb (bare_marker p)) (re_split inline_re s) = true ->
      concat (map run_source (map run_of_part (re_split inline_re s))) = s).
Proof.
  split; [apply re_split_concat|]. split; [apply tokenize_eq|].
  intros H. rewrite concat_run_source by exact H.
  apply re_split_concat.
Qed.

Lemma tokenize_lossless_with_markers_witness :
  concat (map run_source
            (map run_of_part
               (re_split inline_re (lit "a **b** `c` *d* e*")))) =
  lit "a **b** `c` *d* e*".
Proof.
  exact (proj2 (proj2 (tokenize_lossless_with_markers
                         (lit "a **b** `c` *d* e*"))) eq_refl).
Defined.

(** C2, as the claim states it, fails as soon as a marker matches: the runs
    of ["**a**"] hold ["a"] and the four asterisks are gone. *)
Lemma run_texts_drop_markers :
  tokenize (lit "**a**") = Some [Plain []; Bold (lit "a"); Plain []]
  /\ concat (map run_text [Plain []; Bold (lit "a"); Plain []]) = lit "a"
  /\ lit "a" <> lit "**a**".
Proof. split; [reflexivity|]. split; [reflexivity|discriminate]. Qed.

(** C3, at the texts ["*"], ["`"], ["**"] and ["**a*"].  A part that is
    only a marker starts and ends with it, so the tests on [startswith] and
    [endswith] take it for a formatted part and the slice leaves nothing: the
    run is an empty italic, code or bold run and the character is lost.  In
    ["**a*"] the first asterisk has no partner and is lost the same way.  A
    stray marker inside other text, as in ["a * b"], is kept. *)
Theorem lone_marker_loses_its_character :
  tokenize (lit "*") = Some [Italic []]
  /\ tokenize (lit "`") = Some [Code []]
  /\ tokenize (lit "**") = Some [Bold []]
  /\ re_split inline_re (lit "**a*") = [lit "*"; lit "*a*"; []]
  /\ tokenize (lit "**a*") = Some [Italic []; Italic (lit "a"); Plain []]
  /\ tokenize (lit "a * b") = Some [Plain (lit "a * b")].
Proof. repeat split. Qed.

(** C9, as the code has it: the bold test comes first, so a part that
    starts and ends with [**] is bold although it also starts and ends with
    [*], and an italic run is made only of a part that does not start with
    [**].  ["**bold** and *italic*"] gives the bold, plain and italic runs
    of the claim between two empty plain runs, those of the empty parts
    [re.split] returns before the first match and after the last. *)
Theorem bold_checked_before_italic :
  (forall part : str,
      startswith part (lit "**") && endswith part (lit "**") = true ->
      run_of_part part = Bold (slice part 2 2))
  /\ (forall part text : str,
         run_of_part part = Italic text ->
         startswith part (lit "**") = false)
  /\ re_split inline_re (lit "**bold** and *italic*") =
     [[]; lit "**bold**"; lit " and "; lit "*italic*"; []]
  /\ tokenize (lit "**bold** and *italic*") =
     Some [Plain []; Bold (lit "bold"); Plain (lit " and ");
           Italic (lit "italic"); Plain []].
Proof.
  split; [|split; [|split; reflexivity]].
  - intros part H. unfold run_of_part. now rewrite H.
  - intros part text. unfold run_of_part.
    destruct (startswith part (lit "**") && endswith part (lit "**"));
      [discriminate|].
    destruct (startswith part (lit "`") && endswith part (lit "`"));
      [discriminate|].
    destruct (startswith part (lit "**")); [|reflexivity].
    rewrite andb_false_r. discriminate.
Qed.

Lemma bold_checked_before_italic_witness :
  run_of_part (lit "**x**") = Bold (lit "x").
Proof.
  exact (proj1 bold_checked_before_italic (lit "**x**") eq_refl).
Defined.

(** C9, as the claim states it, fails on the number of runs: five runs are
    added, not three. *)
Lemma bold_italic_runs_are_five :
  tokenize (lit "**bold** and *italic*") <>
  Some [Bold (lit "bold"); Plain (lit " and "); Italic (lit "italic")]
  /\ option_map (@length Run) (tokenize (lit "**bold** and *italic*")) =
     Some 5.
Proof. split; [discriminate|reflexivity]. Qed.

(** * Further properties of the block parser *)

(** ** Fences that are closed, rules *)

(** The fence branch, whatever follows. *)
Lemma parse_step_fence (lines : list str) (i : nat) (line : str)
  (after : list str) :
  skipn i lines = line :: after -> is_fence line = true ->
  parse_step lines i =
  (S (S i + length (take_while (fun l => negb (is_fence l)) after)),
   [CodeBlock (join newline (take_while (fun l => negb (is_fence l)) after))]).
Proof.
  intros E Hf. unfold parse_step.
  rewrite E, (fence_not_heading _ Hf), (fence_not_rule _ Hf), Hf.
  now rewrite code_loop_eq.
Qed.




Lemma rule_not_heading (line : str) :
  is_rule line = true -> startswith line (lit "#") = false.
Proof.
  intros H. destruct (startswith line (lit "#")) eqn:E; [|reflexivity].
  apply startswith_head in E as [t ->].
  unfold is_rule in H. apply existsb_exists in H as [r [Hr H]].
  apply str_eqb_eq in H.
  destruct (strip_head "#" t eq_refl) as [t' E]. rewrite E in H.
  simpl in Hr. destruct Hr as [<-|[<-|[<-|[]]]]; discriminate.
Qed.

Lemma rule_nonblank (line : str) : is_rule line = true -> nonblank line = true.
Proof.
  intros H. unfold is_rule in H. apply existsb_exists in H as [r [Hr H]].
  apply str_eqb_eq in H. unfold nonblank. rewrite H.
  simpl in Hr. destruct Hr as [<-|[<-|[<-|[]]]]; reflexivity.
Qed.

(** A rule line ([---], [***] or [___], trimmed) is dropped only where a
    block could start: under the cursor of the outer loop it gives no block
    and the cursor moves one line.  The paragraph loop has no test for it:
    whatever follows, its guard accepts a rule line, so a rule line right
    after paragraph text becomes part of that paragraph. *)
Theorem rule_line_dropped_only_at_block_start :
  (forall (lines : list str) (i : nat) (line : str),
      nth_error lines i = Some line -> is_rule line = true ->
      parse_step lines i = (S i, []))
  /\ (forall (line : str) (after : list str),
         is_rule line = true -> para_guard line after = true)
  /\ (forall (first rule : str) (after : list str),
         para_guard first (rule :: after) = true -> is_rule rule = true ->
         exists more,
           para_run (first :: rule :: after) = first :: rule :: more).
Proof.
  assert (G : forall line after,
             is_rule line = true -> para_guard line after = true).
  { intros line after H. unfold para_guard.
    rewrite (rule_nonblank _ H), (rule_not_heading _ H).
    destruct (is_fence line) eqn:Hf.
    { apply fence_not_rule in Hf. congruence. }
    destruct (has_pipe line) eqn:Hp.
    { apply has_pipe_not_rule in Hp. congruence. }
    reflexivity. }
  split; [|split; [exact G|]].
  - intros lines i line Hn H. apply cursor_split in Hn as [after [E _]].
    unfold parse_step. now rewrite E, (rule_not_heading _ H), H.
  - intros first rule after H1 H2.
    exists (para_run after). cbn [para_run].
    now rewrite H1, (G rule after H2).
Qed.

Lemma rule_line_dropped_only_at_block_start_witness :
  exists more,
    para_run [lit "Title"; lit "---"; lit "text"] =
    lit "Title" :: lit "---" :: more.
Proof.
  exact (proj2 (proj2 rule_line_dropped_only_at_block_start)
           (lit "Title") (lit "---") [lit "text"] eq_refl eq_refl).
Defined.

(** ** What every block satisfies *)

Lemma lstrip_by_idem (p : ascii -> bool) (s : str) :
  lstrip_by p (lstrip_by p s) = lstrip_by p s.
Proof.
  induction s as [|c s IH]; simpl; [reflexivity|].
  destruct (p c) eqn:Hc; [exact IH|]. simpl. now rewrite Hc.
Qed.

Lemma lstrip_by_head (p : ascii -> bool) (s : str) :
  lstrip_by p s = [] \/ exists a t, lstrip_by p s = a :: t /\ p a = false.
Proof.
  induction s as [|c s IH]; simpl; [now left|].
  destruct (p c) eqn:Hc; [exact IH|]. right. now exists c, s.
Qed.

Lemma rstrip_by_idem (p : ascii -> bool) (s : str) :
  rstrip_by p (rstrip_by p s) = rstrip_by p s.
Proof.
  unfold rstrip_by. now rewrite rev_involutive, lstrip_by_idem.
Qed.

Lemma rstrip_by_head (p : ascii -> bool) (a : ascii) (t : str) :
  p a = false -> exists t', rstrip_by p (a :: t) = a :: t'.
Proof.
  intros Ha. destruct (rstrip_by_split p (a :: t)) as [w [E F]].
  destruct (rstrip_by p (a :: t)) as [|x t'].
  - simpl in E. subst w. simpl in F. now rewrite Ha in F.
  - injection E as -> _. now exists t'.
Qed.

(** [s.strip().strip() == s.strip()] *)
Lemma strip_by_idem (p : ascii -> bool) (s : str) :
  strip_by p (strip_by p s) = strip_by p s.
Proof.
  unfold strip_by.
  destruct (lstrip_by_head p s) as [E|[a [t [E Ha]]]]; rewrite E.
  - reflexivity.
  - destruct (rstrip_by_head p a t Ha) as [t' E'].
    rewrite E' at 1. rewrite (lstrip_by_keep p a t' Ha), <- E'.
    apply rstrip_by_idem.
Qed.

Lemma strip_idem (s : str) : strip (strip s) = strip s.
Proof. apply strip_by_idem. Qed.

Lemma strip_by_nil_iff (p : ascii -> bool) (s : str) :
  strip_by p s = [] <-> forallb p s = true.
Proof.
  split.
  - intros E. destruct (strip_by_split p s) as [w1 [w2 [Es [F1 F2]]]].
    rewrite E in Es. simpl in Es. now rewrite Es, forallb_app, F1, F2.
  - intros F. unfold strip_by.
    rewrite <- (app_nil_r s), (lstrip_by_app p s [] F). reflexivity.
Qed.

(** A line is blank exactly when it holds whitespace only. *)
Lemma nonblank_false_iff (s : str) :
  nonblank s = false <-> forallb isspace s = true.
Proof.
  rewrite <- strip_by_nil_iff. fold (strip s). unfold nonblank.
  destruct (strip s); split; congruence.
Qed.

Lemma nonblank_app_l (s t : str) : nonblank s = true -> nonblank (s ++ t) = true.
Proof.
  intros H. destruct (nonblank (s ++ t)) eqn:E; [reflexivity|].
  apply nonblank_false_iff in E. rewrite forallb_app in E.
  apply andb_prop in E as [E _]. apply nonblank_false_iff in E. congruence.
Qed.

Lemma nonblank_join (sep l : str) (more : list str) :
  nonblank l = true -> nonblank (join sep (l :: more)) = true.
Proof.
  intros H. simpl. destruct more; [exact H|]. now apply nonblank_app_l.
Qed.

Lemma para_run_head (rest : list str) (l : str) (more : list str) :
  para_run rest = l :: more -> nonblank l = true.
Proof.
  destruct rest as [|x rest]; simpl; [discriminate|].
  destruct (para_guard x rest) eqn:G; [|discriminate].
  intros [= <- _]. unfold para_guard in G.
  apply andb_prop in G as [G _]. apply andb_prop in G as [G _].
  now apply andb_prop in G as [G _].
Qed.

Lemma split_not_nil (s : str) (sep : ascii) : split s sep <> [].
Proof.
  destruct s as [|c t]; simpl; [discriminate|].
  destruct (Ascii.eqb c sep); [discriminate|].
  destruct (split t sep); discriminate.
Qed.

Lemma row_cells_ok (line : str) :
  row_cells line <> [] /\ Forall (fun c => strip c = c) (row_cells line).
Proof.
  unfold row_cells. split.
  - destruct (split (strip_chars (strip line) (lit "|")) "|") eqn:E;
      [now apply split_not_nil in E|discriminate].
  - apply Forall_forall. intros c Hc. apply in_map_iff in Hc as [c' [<- _]].
    apply strip_idem.
Qed.

Lemma heading_level_pos (line : str) :
  startswith line (lit "#") = true ->
  1 <= length line - length (lstrip_chars line (lit "#")).
Proof.
  intros H. rewrite heading_level_count.
  apply startswith_head in H as [t ->]. simpl. lia.
Qed.

(** One turn appends at most one block, and a block that is well formed. *)
Lemma parse_step_ok (lines : list str) (i j : nat) (new : list Block) :
  parse_step lines i = (j, new) -> Forall block_ok new /\ length new <= 1.
Proof.
  unfold parse_step. destruct (skipn i lines) as [|line after].
  { intros [= <- <-]. split; [constructor|simpl; lia]. }
  destruct (startswith line (lit "#")) eqn:H1.
  { intros [= <- <-]. split; [|simpl; lia]. repeat constructor.
    - now apply heading_level_pos.
    - apply strip_idem. }
  destruct (is_rule line).
  { intros [= <- <-]. split; [constructor|simpl; lia]. }
  destruct (is_fence line).
  { rewrite code_loop_eq. intros [= <- <-].
    split; [repeat constructor|simpl; lia]. }
  destruct (has_pipe line && table_lookahead after).
  { rewrite table_loop_eq, app_nil_l. intros [= <- <-].
    split; [|simpl; lia]. constructor; [|constructor].
    cbn [block_ok]. apply Forall_forall.
    intros row Hr. apply in_map_iff in Hr as [l [<- _]]. apply row_cells_ok. }
  destruct (negb (nonblank line)).
  { intros [= <- <-]. split; [constructor|simpl; lia]. }
  rewrite para_loop_eq, app_nil_l.
  destruct (para_run (line :: after)) as [|l more] eqn:E; intros [= <- <-].
  - split; [constructor|simpl; lia].
  - split; [|simpl; lia]. constructor; [|constructor].
    apply (nonblank_join (lit " ") l more). now apply para_run_head in E.
Qed.

Lemma parse_loop_ok (lines : list str) (fuel i : nat) (blocks r : list Block) :
  parse_loop fuel lines i blocks = Some r ->
  Forall block_ok blocks ->
  Forall block_ok r /\ length r <= length blocks + (length lines - i).
Proof.
  revert i blocks. induction fuel as [|fuel IH]; intros i blocks;
    rewrite parse_loop_unfold;
    destruct (Nat.ltb_spec i (length lines)) as [Hlt|Hge];
    try discriminate;
    try (intros [= <-] Hb; split; [exact Hb|lia]).
  destruct (parse_step lines i) as [j new] eqn:Hs. intros H Hb.
  destruct (parse_step_ok _ _ _ _ Hs) as [Hn Hl].
  destruct (parse_step_progress _ _ _ _ Hs) as [Hij|[-> ->]].
  - apply IH in H as [Hr Hlen]; [|apply Forall_app; now split].
    split; [exact Hr|]. rewrite length_app in Hlen. lia.
  - now rewrite (parse_loop_stuck lines i Hlt Hs) in H.
Qed.

(** Whatever the text, the blocks [parse_markdown] returns are well formed:
    a heading has level 1 or more and a trimmed text, a paragraph is not
    blank, and every row of a table has at least one cell and only trimmed
    cells.  There are never more blocks than lines. *)
Theorem parsed_blocks_well_formed (text : str) (blocks : list Block) :
  parse_markdown text = Some blocks ->
  Forall block_ok blocks /\ length blocks <= length (split text "010").
Proof.
  unfold parse_markdown, segment. intros H.
  apply parse_loop_ok in H; [|constructor]. simpl in H.
  now rewrite Nat.sub_0_r in H.
Qed.

Lemma parsed_blocks_well_formed_witness :
  Forall block_ok
    [Heading 2 (lit "T"); Paragraph (lit " a   b "); Table [[lit "x"; []]]]
  /\ 3 <= length (split (lit "##  T " ++ newline ++ lit " a " ++ newline
                          ++ lit " b " ++ newline ++ newline
                          ++ lit "| x | |" ++ newline ++ lit "|--|--|")
                        "010").
Proof.
  exact (parsed_blocks_well_formed
           (lit "##  T " ++ newline ++ lit " a " ++ newline
            ++ lit " b " ++ newline ++ newline
            ++ lit "| x | |" ++ newline ++ lit "|--|--|")
           [Heading 2 (lit "T"); Paragraph (lit " a   b ");
            Table [[lit "x"; []]]]
           eq_refl).
Defined.

(** ** Lines and newlines *)

Lemma split_app_sep (a b : str) (sep : ascii) :
  (forall c, In c a -> c <> sep) ->
  split (a ++ sep :: b) sep = a :: split b sep.
Proof.
  induction a as [|c a IH]; intros H; simpl.
  - now rewrite Ascii.eqb_refl.
  - destruct (Ascii.eqb_spec c sep) as [->|_].
    + now destruct (H sep (or_introl eq_refl)).
    + rewrite IH; [reflexivity|]. intros d Hd. apply H. now right.
Qed.

Lemma split_snoc_sep (s : str) (sep : ascii) :
  split (s ++ [sep]) sep = split s sep ++ [[]].
Proof.
  induction s as [|c s IH]; simpl.
  - now rewrite Ascii.eqb_refl.
  - destruct (Ascii.eqb c sep); rewrite IH; [reflexivity|].
    destruct (split s sep) as [|w ws] eqn:E; [|reflexivity].
    now apply split_not_nil in E.
Qed.

(** [sep.join(s.split(sep)) == s] *)
Lemma join_split (s : str) (sep : ascii) : join [sep] (split s sep) = s.
Proof.
  induction s as [|c s IH]; [reflexivity|]. cbn [split].
  destruct (Ascii.eqb_spec c sep) as [->|_].
  - destruct (split s sep) as [|w ws] eqn:E;
      [now apply split_not_nil in E|].
    cbn [join app] in *. now rewrite IH.
  - destruct (split s sep) as [|w ws] eqn:E;
      [now apply split_not_nil in E|].
    destruct ws; cbn [join app] in *; now rewrite <- IH.
Qed.

Lemma take_while_le {A : Type} (p : A -> bool) (l : list A) :
  length (take_while p l) <= length l.
Proof.
  induction l as [|x l IH]; simpl; [lia|]. destruct (p x); simpl; lia.
Qed.

Lemma take_while_snoc_stop {A : Type} (p : A -> bool) (l : list A) (y : A) :
  p y = false -> take_while p (l ++ [y]) = take_while p l.
Proof.
  intros Hy. induction l as [|x l IH]; simpl; [now rewrite Hy|].
  now rewrite IH.
Qed.

Lemma para_run_le (rest : list str) : length (para_run rest) <= length rest.
Proof.
  induction rest as [|l rest IH]; simpl; [lia|].
  destruct (para_guard l rest); simpl; lia.
Qed.

Lemma para_guard_snoc_blank (l : str) (rest : list str) :
  para_guard l (rest ++ [[]]) = para_guard l rest.
Proof. unfold para_guard. now destruct rest. Qed.

Lemma para_run_snoc_blank (rest : list str) :
  para_run (rest ++ [[]]) = para_run rest.
Proof.
  induction rest as [|l rest IH]; [reflexivity|]. cbn [app para_run].
  now rewrite para_guard_snoc_blank, IH.
Qed.

Lemma table_lookahead_snoc_blank (after : list str) :
  table_lookahead (after ++ [[]]) = table_lookahead after.
Proof. now destruct after. Qed.

Section TrailingBlank.

Variable lines : list str.
Hypothesis no_fence : forall l, In l lines -> is_fence l = false.

Lemma skipn_cursor (i : nat) :
  i < length lines ->
  exists line after,
    skipn i lines = line :: after /\ In line lines
    /\ skipn i (lines ++ [[]]) = line :: after ++ [[]]
    /\ i + S (length after) = length lines.
Proof.
  intros Hi. destruct (nth_error lines i) as [line|] eqn:E.
  - pose proof (nth_error_In _ _ E) as Hin.
    apply cursor_split in E as [after [E [_ Hl]]].
    exists line, after. repeat split; try assumption; [|lia].
    rewrite skipn_app, E.
    replace (i - length lines) with 0 by lia. reflexivity.
  - apply nth_error_None in E. lia.
Qed.

(** A blank line added at the end changes no turn on the lines before. *)
Lemma parse_step_snoc_blank (i : nat) :
  i < length lines ->
  parse_step (lines ++ [[]]) i = parse_step lines i
  /\ fst (parse_step lines i) <= length lines.
Proof.
  intros Hi.
  destruct (skipn_cursor i Hi) as [line [after [E [Hin [E' Hl]]]]].
  unfold parse_step. rewrite E, E'.
  destruct (startswith line (lit "#")); [split; [reflexivity|simpl; lia]|].
  destruct (is_rule line); [split; [reflexivity|simpl; lia]|].
  rewrite (no_fence line Hin), table_lookahead_snoc_blank.
  destruct (has_pipe line && table_lookahead after).
  { rewrite !table_loop_eq.
    change (line :: after ++ [[]]) with ((line :: after) ++ [[]]).
    rewrite take_while_snoc_stop by reflexivity. split; [reflexivity|].
    cbn [fst]. pose proof (take_while_le has_pipe (line :: after)) as L.
    change (length (line :: after)) with (S (length after)) in L. lia. }
  destruct (negb (nonblank line)); [split; [reflexivity|simpl; lia]|].
  rewrite !para_loop_eq.
  change (line :: after ++ [[]]) with ((line :: after) ++ [[]]).
  rewrite para_run_snoc_blank. split; [reflexivity|].
  cbn [fst]. pose proof (para_run_le (line :: after)) as L.
  change (length (line :: after)) with (S (length after)) in L. lia.
Qed.

Lemma parse_step_last_blank :
  parse_step (lines ++ [[]]) (length lines) = (S (length lines), []).
Proof.
  unfold parse_step.
  now rewrite skipn_app, skipn_all, Nat.sub_diag.
Qed.

Lemma parse_loop_snoc_blank (fuel i : nat) (blocks r : list Block) :
  i <= length lines ->
  parse_loop fuel lines i blocks = Some r ->
  parse_loop (S fuel) (lines ++ [[]]) i blocks = Some r.
Proof.
  revert i blocks. induction fuel as [|fuel IH]; intros i blocks Hi;
    rewrite (parse_loop_unfold _ lines), (parse_loop_unfold _ (lines ++ [[]]));
    rewrite length_app; simpl length;
    destruct (Nat.ltb_spec i (length lines)) as [Hlt|Hge];
    destruct (Nat.ltb_spec i (length lines + 1)) as [Hlt'|Hge'];
    try lia; try discriminate.
  - assert (i = length lines) as -> by lia. intros [= <-].
    rewrite parse_step_last_blank, app_nil_r, parse_loop_unfold.
    rewrite length_app. simpl length.
    destruct (Nat.ltb_spec (S (length lines)) (length lines + 1));
      [lia|reflexivity].
  - destruct (parse_step_snoc_blank i Hlt) as [Es Hb]. rewrite Es.
    destruct (parse_step lines i) as [j new]. simpl in Hb.
    now apply IH.
  - assert (i = length lines) as -> by lia. intros [= <-].
    rewrite parse_step_last_blank, app_nil_r, parse_loop_unfold.
    rewrite length_app. simpl length.
    destruct (Nat.ltb_spec (S (length lines)) (length lines + 1));
      [lia|reflexivity].
Qed.

Lemma parse_loop_drop_blank (fuel i : nat) (blocks r : list Block) :
  i <= length lines ->
  parse_loop fuel (lines ++ [[]]) i blocks = Some r ->
  parse_loop fuel lines i blocks = Some r.
Proof.
  revert i blocks. induction fuel as [|fuel IH]; intros i blocks Hi;
    rewrite (parse_loop_unfold _ lines), (parse_loop_unfold _ (lines ++ [[]]));
    rewrite length_app; simpl length;
    destruct (Nat.ltb_spec i (length lines)) as [Hlt|Hge];
    destruct (Nat.ltb_spec i (length lines + 1)) as [Hlt'|Hge'];
    try lia; try discriminate.
  - destruct (parse_step_snoc_blank i Hlt) as [Es Hb]. rewrite Es.
    destruct (parse_step lines i) as [j new]. simpl in Hb.
    now apply IH.
  - assert (i = length lines) as -> by lia.
    rewrite parse_step_last_blank, app_nil_r, parse_loop_unfold.
    rewrite length_app. simpl length.
    destruct (Nat.ltb_spec (S (length lines)) (length lines + 1));
      [lia|tauto].
Qed.

Lemma segment_snoc_blank : segment (lines ++ [[]]) = segment lines.
Proof.
  destruct (segment lines) as [r|] eqn:E.
  - unfold segment in *. rewrite length_app, Nat.add_comm.
    change (length [@nil ascii] + length lines) with (S (length lines)).
    apply parse_loop_snoc_blank; [lia|exact E].
  - destruct (segment (lines ++ [[]])) as [r|] eqn:E'; [|reflexivity].
    unfold segment in E'. apply parse_loop_drop_blank in E'; [|lia].
    apply parse_loop_enough in E'. rewrite Nat.sub_0_r in E'.
    unfold segment in E. congruence.
Qed.

End TrailingBlank.

Lemma split_no_sep (a : str) (sep : ascii) :
  (forall c, In c a -> c <> sep) -> split a sep = [a].
Proof.
  induction a as [|c a IH]; intros H; [reflexivity|]. cbn [split].
  destruct (Ascii.eqb_spec c sep) as [->|_].
  - now destruct (H sep (or_introl eq_refl)).
  - rewrite IH; [reflexivity|]. intros d Hd. apply H. now right.
Qed.

(** A text whose first line opens a fence that nothing closes. *)
Lemma open_fence_lines (opening : str) (body_lines : list str) :
  is_fence opening = true ->
  (forall l, In l body_lines -> is_fence l = false) ->
  segment (opening :: body_lines) =
  Some [CodeBlock (join newline body_lines)].
Proof.
  intros Hf Hb. unfold segment.
  change (length (opening :: body_lines)) with (S (length body_lines)).
  rewrite parse_loop_unfold.
  change (0 <? length (opening :: body_lines)) with true. cbv iota.
  rewrite (parse_step_fence _ 0 opening body_lines eq_refl Hf).
  rewrite take_while_all by (intros l Hl; now rewrite (Hb l Hl)).
  cbv beta iota. rewrite parse_loop_unfold.
  destruct (Nat.ltb_spec (S (1 + length body_lines))
              (length (opening :: body_lines))) as [L|_];
    [simpl in L; lia|reflexivity].
Qed.

Lemma open_fence_text (opening body : str) :
  (forall c, In c opening -> c <> "010"%char) ->
  is_fence opening = true ->
  (forall l, In l (split body "010") -> is_fence l = false) ->
  parse_markdown (opening ++ newline ++ body) = Some [CodeBlock body].
Proof.
  intros Hn Hf Hb. unfold parse_markdown, newline.
  change (opening ++ ["010"%char] ++ body)
    with (opening ++ "010"%char :: body).
  rewrite split_app_sep by exact Hn.
  rewrite (open_fence_lines opening _ Hf Hb).
  unfold newline. now rewrite join_split.
Qed.

(** A final newline makes no difference to a text without fence lines:
    [parse_markdown] gives the same blocks, and fails to return on the same
    texts, with or without it.  After an open fence it is kept: when the
    text is a fence line, a newline and a body without fence lines, the code
    text is the body without the final newline and the body followed by a
    newline with it.  When the text ends with the open fence line itself the
    code text is empty either way. *)
Theorem trailing_newline_ignored_without_fence :
  (forall text : str,
      (forall l, In l (split text "010") -> is_fence l = false) ->
      parse_markdown (text ++ newline) = parse_markdown text)
  /\ (forall opening body : str,
         (forall c, In c opening -> c <> "010"%char) ->
         is_fence opening = true ->
         (forall l, In l (split body "010") -> is_fence l = false) ->
         parse_markdown (opening ++ newline ++ body) =
         Some [CodeBlock body]
         /\ parse_markdown ((opening ++ newline ++ body) ++ newline) =
            Some [CodeBlock (body ++ newline)])
  /\ (forall opening : str,
         (forall c, In c opening -> c <> "010"%char) ->
         is_fence opening = true ->
         parse_markdown opening = Some [CodeBlock []]
         /\ parse_markdown (opening ++ newline) = Some [CodeBlock []]).
Proof.
  split; [|split].
  - intros text H. unfold parse_markdown, newline.
    rewrite split_snoc_sep. now apply segment_snoc_blank.
  - intros opening body Hn Hf Hb. split; [now apply open_fence_text|].
    rewrite <- !app_assoc. apply open_fence_text; try assumption.
    unfold newline. rewrite split_snoc_sep. intros l Hl.
    apply in_app_iff in Hl as [Hl|[<-|[]]]; [now apply Hb|reflexivity].
  - intros opening Hn Hf. split.
    + unfold parse_markdown. rewrite (split_no_sep opening _ Hn).
      apply (open_fence_lines opening [] Hf). intros l [].
    + rewrite <- (app_nil_r (opening ++ newline)), <- app_assoc.
      apply open_fence_text; try assumption. intros l [<-|[]]. reflexivity.
Qed.

Lemma trailing_newline_ignored_without_fence_witness :
  parse_markdown ((lit "# T" ++ newline ++ lit "| a |") ++ newline) =
  parse_markdown (lit "# T" ++ newline ++ lit "| a |").
Proof.
  refine (proj1 trailing_newline_ignored_without_fence
            (lit "# T" ++ newline ++ lit "| a |") _).
  intros l [<-|[<-|[]]]; reflexivity.
Defined.

(** An open fence keeps the rest of the text character for character: a
    text that starts with a fence line and holds no other fence line parses
    to the one code block whose text is everything after the first
    newline. *)
Theorem open_fence_keeps_text_verbatim (opening body : str) :
  (forall c, In c opening -> c <> "010"%char) ->
  is_fence opening = true ->
  (forall l, In l (split body "010") -> is_fence l = false) ->
  parse_markdown (opening ++ newline ++ body) = Some [CodeBlock body].
Proof.
  intros Hn Hf Hb. unfold parse_markdown, newline.
  change (opening ++ ["010"%char] ++ body)
    with (opening ++ "010"%char :: body).
  rewrite split_app_sep by exact Hn. unfold segment.
  change (length (opening :: split body "010"))
    with (S (length (split body "010"))).
  rewrite parse_loop_unfold.
  change (0 <? length (opening :: split body "010")) with true. cbv iota.
  rewrite (parse_step_fence _ 0 opening (split body "010") eq_refl Hf).
  rewrite take_while_all by (intros l Hl; now rewrite (Hb l Hl)).
  cbv beta iota. rewrite parse_loop_unfold.
  destruct (Nat.ltb_spec (S (1 + length (split body "010")))
              (length (opening :: split body "010"))) as [L|_];
    [simpl in L; lia|].
  unfold newline. now rewrite join_split.
Qed.

Lemma open_fence_keeps_text_verbatim_witness :
  parse_markdown
    (lit "  ```text" ++ newline ++ lit "| a |" ++ newline ++ newline
     ++ lit "# b ") =
  Some [CodeBlock (lit "| a |" ++ newline ++ newline ++ lit "# b ")].
Proof.
  refine (open_fence_keeps_text_verbatim (lit "  ```text")
            (lit "| a |" ++ newline ++ newline ++ lit "# b ") _ eq_refl _).
  - intros c H. repeat (destruct H as [<-|H]; [discriminate|]). destruct H.
  - intros l [<-|[<-|[<-|[]]]]; reflexivity.
Defined.

(** * Further properties of the inline formatter *)

(** ** Text without markers *)

Lemma no_marker_tail (c : ascii) (t : str) :
  no_marker (c :: t) -> no_marker t.
Proof. intros H d Hd. apply H. now right. Qed.

Lemma bt_inline_no_marker (s : str) : no_marker s -> bt inline_re s = [].
Proof.
  intros H. destruct s as [|c t]; [reflexivity|].
  destruct (H c (or_introl eq_refl)) as [H1 H2].
  apply Ascii.eqb_neq in H1, H2. unfold inline_re. cbn [bt].
  now rewrite H1, H2.
Qed.

Lemma split_loop_no_marker (fuel : nat) (pending s : str) :
  no_marker s -> split_loop fuel inline_re pending s = [rev pending ++ s].
Proof.
  revert pending s. induction fuel as [|fuel IH]; intros pending s H;
    [reflexivity|].
  cbn [split_loop]. unfold match_here. rewrite (bt_inline_no_marker s H).
  destruct s as [|c t]; [now rewrite app_nil_r|].
  rewrite IH by (now apply no_marker_tail in H). simpl.
  now rewrite <- app_assoc.
Qed.

Lemma run_of_part_no_marker (s : str) : no_marker s -> run_of_part s = Plain s.
Proof.
  intros H. unfold run_of_part. destruct s as [|c t]; [reflexivity|].
  destruct (H c (or_introl eq_refl)) as [H1 H2].
  apply Ascii.eqb_neq in H1, H2.
  assert (S2 : startswith (c :: t) (lit "**") = false)
    by (unfold lit; simpl; now rewrite H1).
  assert (S1 : startswith (c :: t) (lit "*") = false)
    by (unfold lit; simpl; now rewrite H1).
  assert (T1 : startswith (c :: t) (lit "`") = false)
    by (unfold lit; simpl; now rewrite H2).
  now rewrite S2, S1, T1.
Qed.

(** For a text that holds no asterisk and no backtick [add_formatted_text]
    raises [ValueError] when the text holds a character XML refuses, and
    otherwise adds the text as it is, in one plain run, after the runs the
    paragraph already has; the empty text too gives one (empty) run. *)
Theorem text_without_markers_is_one_plain_run (paragraph : list Run)
  (text : str) :
  (forall c, In c text -> c <> "*"%char /\ c <> "`"%char) ->
  add_formatted_text paragraph text =
  if xml_text text then Some (paragraph ++ [Plain text]) else None.
Proof.
  intros H. rewrite add_formatted_text_eq. unfold part_runs, re_split.
  rewrite (split_loop_no_marker _ [] text H). simpl.
  now rewrite (run_of_part_no_marker text H).
Qed.

Lemma text_without_markers_is_one_plain_run_witness :
  add_formatted_text [Bold (lit "k")] (lit "a_b \ # | c") =
  Some ([Bold (lit "k")] ++ [Plain (lit "a_b \ # | c")]).
Proof.
  apply (text_without_markers_is_one_plain_run [Bold (lit "k")]
           (lit "a_b \ # | c")).
  intros c H. repeat (destruct H as [<-|H]; [split; discriminate|]).
  destruct H.
Defined.

(** ** The parts that match *)

Lemma startswith_app_refl (p x : str) : startswith (p ++ x) p = true.
Proof.
  induction p as [|a p IH]; simpl; [now destruct x|].
  now rewrite Ascii.eqb_refl, IH.
Qed.

Lemma endswith_app_refl (x suffix : str) : endswith (x ++ suffix) suffix = true.
Proof.
  unfold endswith. rewrite rev_app_distr. apply startswith_app_refl.
Qed.

Lemma endswith_marked (marker t : str) :
  endswith (marker ++ t ++ marker) marker = true.
Proof. rewrite app_assoc. apply endswith_app_refl. Qed.

(** The run of a part that the bold, the code or the italic alternative of
    the pattern matches. *)
Lemma run_of_bold (t : str) :
  run_of_part (lit "**" ++ t ++ lit "**") = Bold t.
Proof.
  unfold run_of_part.
  rewrite startswith_app_refl, endswith_marked. cbn [andb].
  pose proof (slice_bracket (lit "**") t (lit "**")) as Hs.
  change (length (lit "**")) with 2 in Hs. now rewrite Hs.
Qed.

Lemma run_of_code (t : str) :
  run_of_part (lit "`" ++ t ++ lit "`") = Code t.
Proof.
  unfold run_of_part.
  replace (startswith (lit "`" ++ t ++ lit "`") (lit "**")) with false
    by reflexivity.
  rewrite startswith_app_refl, endswith_marked. cbn [andb].
  pose proof (slice_bracket (lit "`") t (lit "`")) as Hs.
  change (length (lit "`")) with 1 in Hs. now rewrite Hs.
Qed.

Lemma run_of_italic (t : str) :
  t <> [] -> forallb not_star t = true ->
  run_of_part (lit "*" ++ t ++ lit "*") = Italic t.
Proof.
  intros N F. unfold run_of_part.
  assert (S2 : startswith (lit "*" ++ t ++ lit "*") (lit "**") = false).
  { destruct t as [|c t]; [congruence|]. simpl in F.
    apply andb_prop in F as [F _]. unfold not_star in F.
    apply negb_true_iff in F. unfold lit. simpl. now rewrite F. }
  rewrite S2. cbn [andb].
  replace (startswith (lit "*" ++ t ++ lit "*") (lit "`")) with false
    by reflexivity.
  rewrite startswith_app_refl, endswith_marked. cbn [andb negb].
  pose proof (slice_bracket (lit "*") t (lit "*")) as Hs.
  change (length (lit "*")) with 1 in Hs. now rewrite Hs.
Qed.

Lemma marked_rests_In (a : ascii) (keep : ascii -> bool) (close : regex)
  (s rest : str) :
  In rest (bt (Cat (Chr a) (Cat (ClsPlus keep) close)) s) ->
  exists t mid,
    t <> [] /\ forallb keep t = true /\ s = a :: t ++ mid
    /\ In rest (bt close mid).
Proof.
  intros H. apply cat_rests_In in H as [s1 [H1 H]].
  apply chr_rests_In in H1 as ->.
  apply cat_rests_In in H as [mid [H2 H]].
  apply plus_rests_In in H2 as [t [N [-> F]]]. now exists t, mid.
Qed.

Lemma inline_re_shape (s rest : str) :
  In rest (bt inline_re s) ->
  exists m, s = m ++ rest /\ formatted_match m.
Proof.
  unfold inline_re. intros H. apply alt_rests_In in H as [H|H].
  - apply cat_rests_In in H as [s1 [H1 H]]. apply chr_rests_In in H1 as ->.
    apply marked_rests_In in H as [t [mid [N [F [-> H]]]]].
    apply cat_rests_In in H as [s2 [H2 H]]. apply chr_rests_In in H2 as ->.
    apply chr_rests_In in H as ->.
    exists (lit "**" ++ t ++ lit "**"). split.
    + unfold lit. simpl. now rewrite <- !app_assoc.
    + exists t. left. split; [now repeat split|apply run_of_bold].
  - apply alt_rests_In in H as [H|H].
    + apply marked_rests_In in H as [t [mid [N [F [-> H]]]]].
      apply chr_rests_In in H as ->.
      exists (lit "`" ++ t ++ lit "`"). split.
      * unfold lit. simpl. now rewrite <- !app_assoc.
      * exists t. right. left. split; [now repeat split|apply run_of_code].
    + apply marked_rests_In in H as [t [mid [N [F [-> H]]]]].
      apply chr_rests_In in H as ->.
      exists (lit "*" ++ t ++ lit "*"). split.
      * unfold lit. simpl. now rewrite <- !app_assoc.
      * exists t. right. right.
        split; [now repeat split|now apply run_of_italic].
Qed.

Lemma match_here_formatted (s m rest : str) :
  match_here inline_re s = Some (m, rest) -> formatted_match m.
Proof.
  intros H. pose proof (match_here_app _ _ _ _ H) as E.
  unfold match_here in H. destruct (bt inline_re s) as [|x l] eqn:B;
    [discriminate|]. injection H as _ ->.
  destruct (inline_re_shape s rest) as [m' [E' Hm]].
  { rewrite B. now left. }
  rewrite E' in E. apply app_inv_tail in E. now subst m'.
Qed.

Lemma split_loop_parts (fuel : nat) (pending s : str) :
  Forall formatted_match (odd_parts (split_loop fuel inline_re pending s))
  /\ Nat.Odd (length (split_loop fuel inline_re pending s)).
Proof.
  revert pending s. induction fuel as [|fuel IH]; intros pending s.
  - split; [constructor|now exists 0].
  - cbn [split_loop].
    destruct (match_here inline_re s) as [[m rest]|] eqn:E.
    + destruct (IH [] rest) as [F [k Hk]]. split.
      * cbn [odd_parts]. constructor; [|exact F].
        now apply match_here_formatted in E.
      * exists (S k). cbn [length]. rewrite Hk. lia.
    + destruct s as [|c t]; [|apply IH].
      split; [constructor|now exists 0].
Qed.

(** The parts [re.split] returns are an odd number, text and match in
    turn.  Every match becomes a formatted run that holds exactly what
    stands between the two markers, never an empty text: [**t**] gives
    [Bold t], [`t`] gives [Code t] and [*t*] gives [Italic t]. *)
Theorem matches_become_formatted_runs (text : str) :
  Forall formatted_match (odd_parts (re_split inline_re text))
  /\ Nat.Odd (length (re_split inline_re text)).
Proof. apply split_loop_parts. Qed.

(** [add_formatted_text] raises [ValueError] exactly when the text holds a
    character XML refuses: taking the markers off a part neither hides such
    a character nor brings one in.  On every other text the runs the
    paragraph has stay in place and one run is appended per part of the
    text, an odd number and so at least one. *)
Theorem formatted_text_appends_runs (paragraph : list Run) (text : str) :
  add_formatted_text paragraph text =
  (if xml_text text then Some (paragraph ++ part_runs text) else None)
  /\ length (part_runs text) = length (re_split inline_re text)
  /\ Nat.Odd (length (part_runs text)).
Proof.
  split; [apply add_formatted_text_eq|]. unfold part_runs.
  rewrite length_map. split; [reflexivity|apply split_loop_parts].
Qed.

(** * Properties of [convert_md_to_docx] *)

Lemma enumerate_from_fst {A : Type} (l : list A) (start : nat) :
  map fst (combine (seq start (length l)) l) = seq start (length l).
Proof.
  revert start. induction l as [|x l IH]; intros start; simpl;
    [reflexivity|]. now rewrite IH.
Qed.

Lemma enumerate_fst {A : Type} (l : list A) :
  map fst (enumerate l) = seq 0 (length l).
Proof. apply enumerate_from_fst. Qed.

Lemma enumerate_In {A : Type} (l : list A) (i : nat) (x : A) :
  In (i, x) (enumerate l) -> i < length l /\ In x l.
Proof.
  unfold enumerate. intros H. split.
  - apply in_combine_l, in_seq in H. lia.
  - now apply in_combine_r in H.
Qed.

Lemma fold_left_max_ge (l : list nat) (a : nat) :
  a <= fold_left Nat.max l a
  /\ forall x, In x l -> x <= fold_left Nat.max l a.
Proof.
  revert a. induction l as [|y l IH]; intros a; simpl.
  - split; [lia|]. intros x [].
  - destruct (IH (Nat.max a y)) as [H1 H2]. split; [lia|].
    intros x [<-|Hx]; [lia|]. now apply H2.
Qed.

(** No row is longer than [n_cols]. *)
Lemma max_len_ge (rows : list (list str)) (row : list str) :
  In row rows -> length row <= max_len rows.
Proof.
  intros H. unfold max_len. apply fold_left_max_ge.
  apply in_map_iff. now exists row.
Qed.

Lemma flat_map_ext_in {A B : Type} (f g : A -> list B) (l : list A) :
  (forall x, In x l -> f x = g x) -> flat_map f l = flat_map g l.
Proof.
  induction l as [|x l IH]; intros H; simpl; [reflexivity|].
  rewrite (H x (or_introl eq_refl)), IH; [reflexivity|].
  intros y Hy. apply H. now right.
Qed.

Lemma enumerate_from_In_r {A : Type} (l : list A) (x : A) (start : nat) :
  In x l -> exists i, In (i, x) (combine (seq start (length l)) l).
Proof.
  revert start. induction l as [|a l IH]; intros start; [intros []|].
  intros [->|H].
  - exists start. now left.
  - destruct (IH (S start) H) as [i Hi]. exists i. now right.
Qed.

Lemma enumerate_In_r {A : Type} (l : list A) (x : A) :
  In x l -> exists i, In (i, x) (enumerate l).
Proof. apply enumerate_from_In_r. Qed.

Section Cells.

Variable cell0 : list Run.

(** Inside the table a cell is written unless its text makes
    [add_formatted_text] raise. *)
Lemma fill_cell_eq (n_cols ri ci : nat) (cell_text : str) :
  ci < n_cols ->
  fill_cell cell0 n_cols ri ci cell_text =
  if xml_text cell_text
  then Some [mkCellWrite ri ci (written_runs cell0 ri cell_text)]
  else None.
Proof.
  intros H. unfold fill_cell, written_runs.
  apply Nat.ltb_lt in H. rewrite H, add_formatted_text_eq.
  now destruct (xml_text cell_text).
Qed.

Lemma fill_row_eq (n_cols ri : nat) (row : list str) :
  length row <= n_cols ->
  fill_row cell0 n_cols ri row =
  if forallb xml_text row
  then Some (map (fun '(ci, cell_text) =>
                    mkCellWrite ri ci (written_runs cell0 ri cell_text))
                 (enumerate row))
  else None.
Proof.
  intros H. unfold fill_row.
  assert (E : forall ci cell_text,
             In (ci, cell_text) (enumerate row) ->
             fill_cell cell0 n_cols ri ci cell_text =
             if xml_text cell_text
             then Some [mkCellWrite ri ci (written_runs cell0 ri cell_text)]
             else None).
  { intros ci cell_text Hin. apply enumerate_In in Hin as [Hci _].
    apply fill_cell_eq. lia. }
  destruct (forallb xml_text row) eqn:F.
  - rewrite forallb_forall in F. rewrite append_loop_all.
    + cbn [app]. f_equal. apply flat_map_single.
      intros [ci cell_text] Hin. unfold appended. rewrite (E _ _ Hin).
      apply enumerate_In in Hin as [_ Hin]. now rewrite (F _ Hin).
    + intros [ci cell_text] Hin. rewrite (E _ _ Hin).
      apply enumerate_In in Hin as [_ Hin]. now rewrite (F _ Hin).
  - apply forallb_false_In in F as [cell_text [Hin F]].
    apply enumerate_In_r in Hin as [ci Hin].
    apply (append_loop_raises _ _ _ (ci, cell_text) Hin).
    now rewrite (E _ _ Hin), F.
Qed.

Lemma written_runs_header (cell_text : str) :
  Forall (fun r => run_bold r = true) (written_runs cell0 0 cell_text).
Proof.
  unfold written_runs. cbn [Nat.eqb]. apply Forall_forall.
  intros r Hr. apply in_map_iff in Hr as [r' [<- _]]. reflexivity.
Qed.

(** The two loops over a table: every cell is written, or a cell text
    raises. *)
Lemma fill_rows_eq (rows : list (list str)) :
  append_loop (fun '(ri, row) => fill_row cell0 (max_len rows) ri row)
              (enumerate rows) [] =
  if forallb (forallb xml_text) rows
  then Some (all_cells cell0 rows)
  else None.
Proof.
  assert (E : forall ri row,
             In (ri, row) (enumerate rows) ->
             fill_row cell0 (max_len rows) ri row =
             if forallb xml_text row
             then Some (map (fun '(ci, cell_text) =>
                               mkCellWrite ri ci
                                 (written_runs cell0 ri cell_text))
                            (enumerate row))
             else None).
  { intros ri row Hin. apply enumerate_In in Hin as [_ Hin].
    apply fill_row_eq. now apply max_len_ge. }
  destruct (forallb (forallb xml_text) rows) eqn:F.
  - rewrite forallb_forall in F. rewrite append_loop_all.
    + cbn [app]. f_equal. unfold all_cells. apply flat_map_ext_in.
      intros [ri row] Hin. unfold appended. rewrite (E _ _ Hin).
      apply enumerate_In in Hin as [_ Hin]. now rewrite (F _ Hin).
    + intros [ri row] Hin. rewrite (E _ _ Hin).
      apply enumerate_In in Hin as [_ Hin]. now rewrite (F _ Hin).
  - apply forallb_false_In in F as [row [Hin F]].
    apply enumerate_In_r in Hin as [ri Hin].
    apply (append_loop_raises _ _ _ (ri, row) Hin).
    now rewrite (E _ _ Hin), F.
Qed.

Lemma all_cells_bounds (rows : list (list str)) :
  Forall (fun w => cell_row w < length rows /\ cell_col w < max_len rows
                   /\ (cell_row w = 0 ->
                       Forall (fun r => run_bold r = true) (cell_runs w)))
         (all_cells cell0 rows).
Proof.
  apply Forall_forall. intros w Hw. unfold all_cells in Hw.
  apply in_flat_map in Hw as [[ri row] [Hr Hw]].
  apply in_map_iff in Hw as [[ci cell_text] [<- Hc]].
  apply enumerate_In in Hr as [Hri Hrow].
  apply enumerate_In in Hc as [Hci _]. cbn.
  pose proof (max_len_ge rows row Hrow). repeat split; try lia.
  intros ->. apply written_runs_header.
Qed.

Lemma convert_table_eq (rows : list (list str)) :
  rows <> [] ->
  convert_block cell0 (Table rows) =
  if forallb (forallb xml_text) rows
  then Some [DocTable (length rows) (max_len rows) (all_cells cell0 rows);
             DocParagraph []]
  else None.
Proof.
  intros N. destruct rows as [|row rows]; [congruence|].
  cbn [convert_block]. rewrite fill_rows_eq.
  now destruct (forallb (forallb xml_text) (row :: rows)).
Qed.

End Cells.

(** A table that has rows is added with as many rows as the block and as
    many columns as its longest row; then every cell of every row is
    written, once and in order, unless a cell text holds a character XML
    refuses, which raises [ValueError] and ends the conversion.  The test
    [ci < n_cols] never leaves a cell out.  Every write is inside the
    table, so [table.cell(ri, ci)] is never out of range, and every run of
    a cell of row 0 ends bold, whatever its own formatting.  One empty
    paragraph follows the table. *)
Theorem table_cells_all_written_in_bounds (cell0 : list Run)
  (rows : list (list str)) :
  rows <> [] ->
  convert_block cell0 (Table rows) =
  (if forallb (forallb xml_text) rows
   then Some [DocTable (length rows) (max_len rows) (all_cells cell0 rows);
              DocParagraph []]
   else None)
  /\ Forall (fun w => cell_row w < length rows /\ cell_col w < max_len rows
                      /\ (cell_row w = 0 ->
                          Forall (fun r => run_bold r = true) (cell_runs w)))
            (all_cells cell0 rows)
  /\ map (fun w => (cell_row w, cell_col w)) (all_cells cell0 rows) =
     flat_map (fun '(ri, row) => map (pair ri) (seq 0 (length row)))
              (enumerate rows).
Proof.
  intros N. split; [|split; [apply all_cells_bounds|]].
  - now apply convert_table_eq.
  - unfold all_cells. rewrite flat_map_concat_map, concat_map, map_map.
    rewrite flat_map_concat_map. f_equal. apply map_ext.
    intros [ri row]. rewrite map_map, <- enumerate_fst, map_map.
    apply map_ext. now intros [ci cell_text].
Qed.

Lemma table_cells_all_written_in_bounds_witness :
  convert_block [Plain []] (Table [[lit "k"]; [lit "*x*"; []]]) =
  Some [DocTable 2 2
          [mkCellWrite 0 0 [mkDocRun [] true false false;
                            mkDocRun (lit "k") true false false];
           mkCellWrite 1 0 [mkDocRun [] false false false;
                            mkDocRun [] false false false;
                            mkDocRun (lit "x") false true false;
                            mkDocRun [] false false false];
           mkCellWrite 1 1 [mkDocRun [] false false false;
                            mkDocRun [] false false false]];
        DocParagraph []].
Proof.
  refine (proj1 (table_cells_all_written_in_bounds [Plain []]
                   [[lit "k"]; [lit "*x*"; []]] _)).
  discriminate.
Defined.

Lemma convert_block_ok (cell0 : list Run) (b : Block) (es : list Element) :
  block_ok b -> convert_block cell0 b = Some es -> Forall element_ok es.
Proof.
  destruct b as [level text|text|text|rows]; cbn [block_ok convert_block].
  - intros [Hl Ht]. destruct (xml_text text); [|discriminate].
    intros [= <-]. constructor; [|constructor]. cbn [element_ok].
    repeat split; try assumption; lia.
  - intros _. destruct (add_formatted_text [] text); [|discriminate].
    intros [= <-]. constructor; [exact I|constructor].
  - intros _. destruct (xml_text text); [|discriminate].
    intros [= <-]. constructor; [exact I|constructor].
  - intros H. destruct rows as [|row rows]; [intros [= <-]; constructor|].
    rewrite fill_rows_eq.
    destruct (forallb (forallb xml_text) (row :: rows)); [|discriminate].
    intros [= <-]. constructor; [|constructor; [exact I|constructor]].
    cbn [element_ok]. split; [cbn; lia|]. split.
    + apply Forall_inv in H as [Hrow _].
      pose proof (max_len_ge (row :: rows) row (or_introl eq_refl)).
      destruct row; [congruence|]. cbn [length] in *. lia.
    + eapply Forall_impl; [|apply all_cells_bounds]. cbn. tauto.
Qed.

Lemma convert_blocks_ok (cell0 : list Run) (blocks : list Block)
  (doc : list Element) :
  Forall block_ok blocks -> convert_blocks cell0 blocks = Some doc ->
  Forall element_ok doc.
Proof.
  intros Hb H. unfold convert_blocks in H.
  apply append_loop_Some in H as [N ->]. cbn [app].
  apply Forall_flat_map. apply Forall_forall. intros b Hin.
  rewrite Forall_forall in Hb. unfold appended.
  destruct (convert_block cell0 b) as [es|] eqn:E; [|constructor].
  exact (convert_block_ok cell0 b es (Hb b Hin) E).
Qed.

(** In the document made of any text [parse_markdown] returns on, every
    heading is added with a level between 1 and 4 (the level of the block,
    capped at 4; left aligned exactly at level 1) and a trimmed text, and
    every table has at least one row and one column, with all cell writes
    inside it.  So [add_heading] never gets a level it refuses and
    [table.cell] never an index out of range. *)
Theorem document_headings_and_tables_in_range (cell0 : list Run)
  (text : str) (doc : list Element) :
  convert_md_to_docx cell0 text = Some doc -> Forall element_ok doc.
Proof.
  unfold convert_md_to_docx, parse_markdown, segment.
  destruct (parse_loop _ _ 0 []) as [blocks|] eqn:E; [|discriminate].
  apply parse_loop_ok in E as [Hb _]; [|constructor].
  now apply convert_blocks_ok.
Qed.

Lemma document_headings_and_tables_in_range_witness :
  Forall element_ok
    [DocHeading (lit "Deep") 4 false;
     DocTable 1 2
       [mkCellWrite 0 0 [mkDocRun [] true false false;
                         mkDocRun (lit "a") true false false];
        mkCellWrite 0 1 [mkDocRun [] true false false;
                         mkDocRun [] true false false;
                         mkDocRun (lit "b") true false true;
                         mkDocRun [] true false false]];
     DocParagraph []].
Proof.
  exact (document_headings_and_tables_in_range [Plain []]
           (lit "###### Deep" ++ newline ++ lit "| a | `b` |" ++ newline
            ++ lit "|---|---|")
           _ eq_refl).
Defined.

(** * The lines of a paragraph *)

Lemma para_run_prefix (rest : list str) :
  rest = para_run rest ++ skipn (length (para_run rest)) rest.
Proof.
  induction rest as [|l rest IH]; [reflexivity|]. cbn [para_run].
  destruct (para_guard l rest); [|reflexivity].
  cbn [length skipn app]. now rewrite <- IH.
Qed.

Lemma para_run_plain (rest : list str) :
  Forall (fun l => nonblank l = true /\ startswith l (lit "#") = false
                   /\ is_fence l = false)
         (para_run rest).
Proof.
  induction rest as [|l rest IH]; [constructor|]. cbn [para_run].
  destruct (para_guard l rest) eqn:G; [|constructor].
  constructor; [|exact IH]. unfold para_guard in G.
  apply andb_prop in G as [G _]. apply andb_prop in G as [G G3].
  apply andb_prop in G as [G1 G2]. apply negb_true_iff in G2, G3.
  now repeat split.
Qed.

(** A paragraph is made of consecutive lines, from the cursor up to the new
    cursor, joined by single spaces and otherwise unchanged; none of them is
    blank, starts with [#] or is a fence line: a heading is never merged
    into a paragraph. *)
Theorem paragraph_is_joined_plain_lines (lines : list str) (i j : nat)
  (text : str) :
  parse_step lines i = (j, [Paragraph text]) ->
  exists run,
    run <> [] /\ j = i + length run
    /\ skipn i lines = run ++ skipn j lines
    /\ text = join (lit " ") run
    /\ Forall (fun l => nonblank l = true /\ startswith l (lit "#") = false
                        /\ is_fence l = false) run.
Proof.
  unfold parse_step. destruct (skipn i lines) as [|line after] eqn:E;
    [discriminate|].
  destruct (startswith line (lit "#")); [discriminate|].
  destruct (is_rule line); [discriminate|].
  destruct (is_fence line); [rewrite code_loop_eq; discriminate|].
  destruct (has_pipe line && table_lookahead after);
    [rewrite table_loop_eq; discriminate|].
  destruct (negb (nonblank line)); [discriminate|].
  rewrite para_loop_eq, app_nil_l.
  destruct (para_run (line :: after)) as [|l more] eqn:R; [discriminate|].
  intros [= <- <-]. exists (l :: more).
  split; [discriminate|]. split; [reflexivity|]. split; [|split].
  - pose proof (para_run_prefix (line :: after)) as P. rewrite R in P.
    now rewrite Nat.add_comm, <- skipn_skipn, E.
  - reflexivity.
  - rewrite <- R. apply para_run_plain.
Qed.

Lemma paragraph_is_joined_plain_lines_witness :
  exists run,
    run <> [] /\ 3 = 1 + length run
    /\ skipn 1 [lit "# h"; lit " one"; lit "two "; lit "# k"] =
       run ++ skipn 3 [lit "# h"; lit " one"; lit "two "; lit "# k"]
    /\ lit " one two " = join (lit " ") run
    /\ Forall (fun l => nonblank l = true /\ startswith l (lit "#") = false
                        /\ is_fence l = false) run.
Proof.
  exact (paragraph_is_joined_plain_lines
           [lit "# h"; lit " one"; lit "two "; lit "# k"] 1 3
           (lit " one two ") eq_refl).
Defined.

(** * A text XML takes is converted without [ValueError] *)

Lemma xml_lstrip_by (q : ascii -> bool) (s : str) :
  xml_text s = true -> xml_text (lstrip_by q s) = true.
Proof.
  induction s as [|c s IH]; [reflexivity|]. intros H. cbn [lstrip_by].
  destruct (q c); [|exact H]. apply andb_prop in H as [_ H]. now apply IH.
Qed.

Lemma xml_strip_by (q : ascii -> bool) (s : str) :
  xml_text s = true -> xml_text (strip_by q s) = true.
Proof.
  intros H. unfold strip_by, rstrip_by, xml_text.
  rewrite forallb_rev. apply xml_lstrip_by. unfold xml_text.
  rewrite forallb_rev. now apply xml_lstrip_by.
Qed.

Lemma xml_split (s : str) (sep : ascii) :
  xml_text s = true -> Forall (fun l => xml_text l = true) (split s sep).
Proof.
  induction s as [|c s IH]; [repeat constructor|]. intros H.
  apply andb_prop in H as [Hc Hs]. specialize (IH Hs). cbn [split].
  destruct (Ascii.eqb c sep); [now constructor|].
  destruct (split s sep) as [|w ws]; [repeat constructor; cbn; now rewrite Hc|].
  apply Forall_cons_iff in IH as [Hw Hws]. constructor; [|exact Hws].
  cbn. now rewrite Hc.
Qed.

Lemma xml_join (sep : str) (parts : list str) :
  xml_text sep = true -> Forall (fun l => xml_text l = true) parts ->
  xml_text (join sep parts) = true.
Proof.
  intros Hs. induction parts as [|p parts IH]; [reflexivity|]. intros H.
  apply Forall_cons_iff in H as [Hp H]. cbn [join].
  destruct parts; [exact Hp|]. now rewrite !xml_text_app, Hp, Hs, IH.
Qed.

Lemma take_while_Forall_of {A : Type} (P : A -> Prop) (q : A -> bool)
  (l : list A) : Forall P l -> Forall P (take_while q l).
Proof.
  induction 1 as [|x l Hx H IH]; cbn; [constructor|].
  destruct (q x); now constructor.
Qed.

Lemma para_run_Forall_of (P : str -> Prop) (rest : list str) :
  Forall P rest -> Forall P (para_run rest).
Proof.
  induction 1 as [|x l Hx H IH]; cbn; [constructor|].
  destruct (para_guard x l); now constructor.
Qed.

Lemma xml_row_cells (line : str) :
  xml_text line = true -> forallb xml_text (row_cells line) = true.
Proof.
  intros H. unfold row_cells. apply forallb_forall. intros c Hc.
  apply in_map_iff in Hc as [c' [<- Hc]]. apply xml_strip_by.
  assert (F : Forall (fun l => xml_text l = true)
                (split (strip_chars (strip line) (lit "|")) "|")).
  { apply xml_split. unfold strip_chars. apply xml_strip_by.
    now apply xml_strip_by. }
  rewrite Forall_forall in F. now apply F.
Qed.

(** The texts of a block come from the lines: only spaces and newlines are
    put between them. *)
Lemma parse_step_xml (lines : list str) (i j : nat) (new : list Block) :
  Forall (fun l => xml_text l = true) lines ->
  parse_step lines i = (j, new) -> Forall block_xml new.
Proof.
  intros Hl. assert (Hs : Forall (fun l => xml_text l = true) (skipn i lines)).
  { rewrite <- (firstn_skipn i lines) in Hl. now apply Forall_app in Hl. }
  unfold parse_step. destruct (skipn i lines) as [|line after].
  { intros [= <- <-]. constructor. }
  pose proof Hs as Hla. apply Forall_cons_iff in Hla as [Hline Hafter].
  destruct (startswith line (lit "#")).
  { intros [= <- <-]. constructor; [|constructor]. cbn [block_xml].
    apply xml_strip_by. unfold lstrip_chars. now apply xml_lstrip_by. }
  destruct (is_rule line); [intros [= <- <-]; constructor|].
  destruct (is_fence line).
  { rewrite code_loop_eq, app_nil_l. intros [= <- <-].
    constructor; [|constructor]. cbn [block_xml].
    apply xml_join; [reflexivity|]. now apply take_while_Forall_of. }
  destruct (has_pipe line && table_lookahead after).
  { rewrite table_loop_eq, app_nil_l. intros [= <- <-].
    constructor; [|constructor]. cbn [block_xml].
    apply forallb_forall. intros row Hr.
    apply in_map_iff in Hr as [l [<- Hr]]. apply filter_In in Hr as [Hr _].
    apply xml_row_cells.
    pose proof (take_while_Forall_of _ has_pipe _ Hs) as F.
    rewrite Forall_forall in F. now apply F. }
  destruct (negb (nonblank line)); [intros [= <- <-]; constructor|].
  rewrite para_loop_eq, app_nil_l.
  pose proof (para_run_Forall_of _ _ Hs) as F.
  destruct (para_run (line :: after)) as [|l more]; intros [= <- <-];
    constructor; [|constructor].
  exact (xml_join (lit " ") (l :: more) eq_refl F).
Qed.

Lemma parse_loop_xml (lines : list str) (fuel i : nat)
  (blocks r : list Block) :
  Forall (fun l => xml_text l = true) lines ->
  parse_loop fuel lines i blocks = Some r ->
  Forall block_xml blocks -> Forall block_xml r.
Proof.
  intros Hl. revert i blocks.
  induction fuel as [|fuel IH]; intros i blocks;
    rewrite parse_loop_unfold; destruct (i <? length lines);
    try discriminate; try (now intros [= <-]).
  destruct (parse_step lines i) as [j new] eqn:Hs. intros H Hb.
  apply IH in H; [exact H|]. apply Forall_app. split; [exact Hb|].
  now apply (parse_step_xml lines i j).
Qed.

Lemma convert_block_returns (cell0 : list Run) (b : Block) :
  block_xml b -> convert_block cell0 b <> None.
Proof.
  destruct b as [level text|text|text|rows]; cbn [block_xml convert_block];
    intros H.
  - now rewrite H.
  - now rewrite add_formatted_text_eq, H.
  - now rewrite H.
  - destruct rows as [|row rows]; [discriminate|].
    now rewrite fill_rows_eq, H.
Qed.

(** A text in which every character is one XML takes is converted without
    [ValueError]: whenever [parse_markdown] returns on it, every text handed
    to [add_heading] or [add_run] is made of characters of the text, spaces
    and newlines, and the document is built. *)
Theorem xml_text_converts_without_error (cell0 : list Run) (text : str)
  (blocks : list Block) :
  xml_text text = true ->
  parse_markdown text = Some blocks ->
  Forall block_xml blocks
  /\ exists doc, convert_md_to_docx cell0 text = Some doc.
Proof.
  intros Hx Hp. unfold convert_md_to_docx. rewrite Hp.
  unfold parse_markdown, segment in Hp.
  apply parse_loop_xml in Hp; [|now apply xml_split|constructor].
  split; [exact Hp|]. unfold convert_blocks. rewrite append_loop_all.
  - eexists. reflexivity.
  - intros b Hb. apply convert_block_returns.
    rewrite Forall_forall in Hp. now apply Hp.
Qed.

Lemma xml_text_converts_without_error_witness :
  Forall block_xml [Heading 1 (lit "T"); Table [[lit "a"; lit "*b*"]]]
  /\ exists doc,
       convert_md_to_docx [Plain []]
         (lit "# T" ++ newline ++ lit "|a|*b*|" ++ newline ++ lit "|-|-|") =
       Some doc.
Proof.
  exact (xml_text_converts_without_error [Plain []]
           (lit "# T" ++ newline ++ lit "|a|*b*|" ++ newline ++ lit "|-|-|")
           [Heading 1 (lit "T"); Table [[lit "a"; lit "*b*"]]]
           eq_refl eq_refl).
Defined.
